(** * find_system_data.py: the System Data finder, embedded and verified

    The script walks a fixed catalog of directories, asks [du] for the size
    of each one, collects the results in a Python list, sorts that list in
    place and prints a table followed by a grand total.  A second pass asks
    [find ... -exec du] for the directories below a few roots.

    The embedding follows the script function by function:
    - Python [str] is [string]; the model covers ASCII text, [len] counts
      characters;
    - Python [int] is [Z] (unbounded), Python [float] is a binary64 value of
      [SpecFloat.spec_float];
    - exceptions are an inductive type, a computation returns [Ret v] or
      [Raise e] together with the world it leaves behind;
    - the world holds the heap of list objects, what was written to standard
      output and the commands that were spawned;
    - the file system and the external utilities are an environment [Env]
      that the functions read but never change. *)

From Stdlib Require Import ZArith List String Ascii Bool Lia.
From Stdlib Require Import Permutation Sorted DecimalString.
From Stdlib Require Import Floats.SpecFloat.
From stdpp Require Import base strings gmap.

Import ListNotations.
Local Open Scope string_scope.
Local Open Scope list_scope.
Local Open Scope Z_scope.

(** ** Python values: exceptions, strings, integers, floats *)

Module Py.

(** The exception classes that the script names or that its expressions can
    raise. *)
Inductive exn : Type :=
  | TimeoutExpired
  | ValueError
  | UnicodeDecodeError
  | OSError
  | PermissionError
  | FileNotFoundError
  | IndexError
  | OverflowError
  | KeyboardInterrupt.

(** [isinstance e c] for exception classes: the class hierarchy of the
    interpreter restricted to [exn]. *)
Definition subclass (e c : exn) : bool :=
  match e, c with
  | TimeoutExpired, TimeoutExpired => true
  | ValueError, ValueError => true
  | UnicodeDecodeError, (UnicodeDecodeError | ValueError) => true
  | OSError, OSError => true
  | PermissionError, (PermissionError | OSError) => true
  | FileNotFoundError, (FileNotFoundError | OSError) => true
  | IndexError, IndexError => true
  | OverflowError, OverflowError => true
  | KeyboardInterrupt, KeyboardInterrupt => true
  | _, _ => false
  end.

Inductive outcome (A : Type) : Type :=
  | Ret (a : A)
  | Raise (e : exn).
Arguments Ret {A} a.
Arguments Raise {A} e.

(** *** Characters and strings *)

Definition code (c : ascii) : Z := Z.of_nat (nat_of_ascii c).

(** [str.isspace] on ASCII: tab, line feed, vertical tab, form feed,
    carriage return, the four separators 28..31 and the space. *)
Definition isspace (c : ascii) : bool :=
  let n := code c in
  ((9 <=? n) && (n <=? 13)) || ((28 <=? n) && (n <=? 32)).

Definition isdigit (c : ascii) : bool :=
  let n := code c in (48 <=? n) && (n <=? 57).

Definition digit_value (c : ascii) : Z := code c - 48.

Definition len (s : string) : Z := Z.of_nat (String.length s).

Fixpoint rev_string (acc s : string) : string :=
  match s with
  | EmptyString => acc
  | String c s' => rev_string (String c acc) s'
  end.

(** ["c" * n] *)
Fixpoint repeat_char (c : ascii) (n : nat) : string :=
  match n with
  | O => EmptyString
  | S k => String c (repeat_char c k)
  end.

Definition str_mul (c : ascii) (n : Z) : string := repeat_char c (Z.to_nat n).

Fixpoint lstrip (s : string) : string :=
  match s with
  | EmptyString => EmptyString
  | String c s' => if isspace c then lstrip s' else s
  end.

Definition rstrip (s : string) : string :=
  rev_string EmptyString (lstrip (rev_string EmptyString s)).

(** [s.strip()] *)
Definition strip (s : string) : string := rstrip (lstrip s).

Definition flush (tok : string) : list string :=
  match tok with
  | EmptyString => []
  | _ => [rev_string EmptyString tok]
  end.

(** [s.split()]: the maximal runs of non-space characters.  [tok] holds the
    run being read, last character first. *)
Fixpoint split_ws (tok s : string) : list string :=
  match s with
  | EmptyString => flush tok
  | String c s' =>
      if isspace c then flush tok ++ split_ws EmptyString s'
      else split_ws (String c tok) s'
  end.

Definition split (s : string) : list string := split_ws EmptyString s.

(** [s.split(sep)] for a one-character separator: never empty, keeps empty
    fields. *)
Fixpoint split_on (sep : ascii) (tok s : string) : list string :=
  match s with
  | EmptyString => [rev_string EmptyString tok]
  | String c s' =>
      if Ascii.eqb c sep then rev_string EmptyString tok :: split_on sep EmptyString s'
      else split_on sep (String c tok) s'
  end.

Definition split_sep (sep : ascii) (s : string) : list string :=
  split_on sep EmptyString s.

Fixpoint drop_chars (n : nat) (s : string) : string :=
  match n, s with
  | O, _ => s
  | S k, EmptyString => EmptyString
  | S k, String _ s' => drop_chars k s'
  end.

Fixpoint take_chars (n : nat) (s : string) : string :=
  match n, s with
  | O, _ => EmptyString
  | S k, EmptyString => EmptyString
  | S k, String c s' => String c (take_chars k s')
  end.

(** [s[i:]]: a negative start counts from the end, everything is clamped. *)
Definition slice_from (s : string) (i : Z) : string :=
  let n := len s in
  let start := if i <? 0 then Z.max 0 (n + i) else Z.min i n in
  drop_chars (Z.to_nat start) s.

(** [s.startswith(p)] and [s.endswith(p)] *)
Fixpoint startswith (p s : string) : bool :=
  match p, s with
  | EmptyString, _ => true
  | String a p', String b s' => Ascii.eqb a b && startswith p' s'
  | String _ _, EmptyString => false
  end.

Definition endswith (p s : string) : bool :=
  startswith (rev_string EmptyString p) (rev_string EmptyString s).

(** [f"{s:<w}"] and [f"{s:>w}"]: pad with spaces, never cut. *)
Definition ljust (s : string) (w : Z) : string := s +:+ str_mul " " (w - len s).
Definition rjust (s : string) (w : Z) : string := str_mul " " (w - len s) +:+ s.

(** [seq[0]] *)
Definition item0 {A} (l : list A) : outcome A :=
  match l with
  | x :: _ => Ret x
  | [] => Raise IndexError
  end.

(** *** [int(str)] *)

(** [sys.get_int_max_str_digits()], the interpreter's default. *)
Definition int_max_str_digits : Z := 4300.

(** The digits of a decimal literal: digits separated by single
    underscores.  [acc] is the value read so far, [n] the number of digits,
    [after_digit] tells whether the previous character was a digit. *)
Fixpoint int_digits (acc n : Z) (after_digit : bool) (s : string) : option (Z * Z) :=
  match s with
  | EmptyString => if after_digit then Some (acc, n) else None
  | String c s' =>
      if isdigit c then int_digits (10 * acc + digit_value c) (n + 1) true s'
      else if Ascii.eqb c "_" then
        if after_digit then int_digits acc n false s' else None
      else None
  end.

Definition int_unsigned (s : string) : option Z :=
  match int_digits 0 0 false s with
  | Some (v, n) => if int_max_str_digits <? n then None else Some v
  | None => None
  end.

(** The white space [int] skips around the digits of an ASCII string: tab,
    line feed, vertical tab, form feed, carriage return and the space.  The
    separators 28..31, white space for [str.isspace], are not skipped. *)
Definition int_isspace (c : ascii) : bool :=
  let n := code c in
  ((9 <=? n) && (n <=? 13)) || (n =? 32).

Fixpoint int_lstrip (s : string) : string :=
  match s with
  | EmptyString => EmptyString
  | String c s' => if int_isspace c then int_lstrip s' else s
  end.

Definition int_strip (s : string) : string :=
  rev_string EmptyString (int_lstrip (rev_string EmptyString (int_lstrip s))).

(** [int(s)] for a string: the white space around the number is skipped,
    one sign is allowed; anything else is a [ValueError]. *)
Definition int (s : string) : outcome Z :=
  let body := int_strip s in
  let r :=
    match body with
    | String "-" d => option_map Z.opp (int_unsigned d)
    | String "+" d => int_unsigned d
    | _ => int_unsigned body
    end in
  match r with
  | Some v => Ret v
  | None => Raise ValueError
  end.

(** *** [float] *)

Definition float : Type := spec_float.

(** [a / 2**k] for integers: the quotient rounded to the nearest binary64,
    ties to even; [OverflowError] when it is too large for a float. *)
Definition int_truediv_pow2 (a k : Z) : outcome float :=
  match binary_normalize 53 1024 a (- k) false with
  | S754_infinity _ => Raise OverflowError
  | S754_nan => Raise OverflowError
  | x => Ret x
  end.

(** Zero or a finite number: neither an infinity nor a NaN. *)
Definition float_is_finite (x : float) : bool :=
  match x with
  | S754_zero _ | S754_finite _ _ _ => true
  | S754_infinity _ | S754_nan => false
  end.

(** [x >= y] on floats. *)
Definition float_ge (x y : float) : bool := SFleb y x.

(** Nearest integer to [n / d], ties to even, for [0 <= n] and [0 < d]. *)
Definition div_half_even (n d : Z) : Z :=
  let q := n / d in
  match (2 * (n mod d)) ?= d with
  | Lt => q
  | Gt => q + 1
  | Eq => if Z.even q then q else q + 1
  end.

(** The hundredths of [m * 2^e], correctly rounded. *)
Definition hundredths (m : positive) (e : Z) : Z :=
  if 0 <=? e then Zpos m * 100 * 2 ^ e
  else div_half_even (Zpos m * 100) (2 ^ (- e)).

Definition str_of_nat_Z (n : Z) : string :=
  NilZero.string_of_uint (N.to_uint (Z.to_N n)).

Definition two_digits (n : Z) : string :=
  if n <? 10 then "0" +:+ str_of_nat_Z n else str_of_nat_Z n.

Definition sign_str (s : bool) : string := if s then "-" else "".

(** [f"{x:.2f}"] *)
Definition format_2f (x : float) : string :=
  match x with
  | S754_zero s => sign_str s +:+ "0.00"
  | S754_infinity s => sign_str s +:+ "inf"
  | S754_nan => "nan"
  | S754_finite s m e =>
      let h := hundredths m e in
      sign_str s +:+ str_of_nat_Z (h / 100) +:+ "." +:+ two_digits (h mod 100)
  end.

End Py.

Import Py.

(** ** The world the script runs in *)

(** One entry of the result list: the tuple
    [(path_str, description, size_bytes, requires_sudo)]. *)
Record Location : Type := mkLocation {
  loc_path : string;
  loc_desc : string;
  loc_size : Z;
  loc_sudo : bool
}.

(** What [subprocess.run(argv, capture_output=True, text=True, timeout=...)]
    can do: complete with an exit status and the decoded standard output,
    or raise. *)
Inductive run_result : Type :=
  | Completed (returncode : Z) (out : string)
  | Failed (e : exn).

(** The environment: the file system as [Path.exists] and [Path.is_dir] see
    it and the behaviour of the spawned commands.  It is the same for the
    whole run (a fixed snapshot of the file system). *)
Record Env : Type := mkEnv {
  path_exists : string -> bool;
  path_is_dir : string -> bool;
  run : list string -> run_result
}.

(** References to list objects. *)
Definition ref : Type := nat.

Record World : Type := mkWorld {
  heap : gmap nat (list Location);
  stdout : list string;
  calls : list (list string)
}.

(** A computation: the outcome and the world it leaves; an exception keeps
    the effects made before it was raised. *)
Definition M (A : Type) : Type := World -> outcome A * World.

Definition ret {A} (a : A) : M A := fun w => (Ret a, w).

Definition raise {A} (e : exn) : M A := fun w => (Raise e, w).

Definition bind {A B} (c : M A) (k : A -> M B) : M B :=
  fun w =>
    match c w with
    | (Ret a, w') => k a w'
    | (Raise e, w') => (Raise e, w')
    end.

Definition lift {A} (o : outcome A) : M A := fun w => (o, w).

(** [try: body  except classes: handler]; an exception of another class
    propagates. *)
Definition try_except {A} (body : M A) (classes : list exn) (handler : M A) : M A :=
  fun w =>
    match body w with
    | (Ret a, w') => (Ret a, w')
    | (Raise e, w') =>
        if existsb (subclass e) classes then handler w' else (Raise e, w')
    end.

Notation "x <- c ;; k" := (bind c (fun x => k))
  (at level 100, c at next level, right associativity).
Notation "c ;;; k" := (bind c (fun _ => k))
  (at level 100, right associativity).

(** Writing to standard output; every [print] call is one element. *)
Definition write (s : string) : M unit :=
  fun w => (Ret tt, mkWorld (heap w) (stdout w ++ [s]) (calls w)).

Definition newline : string := String "010" "".
Definition carriage_return : string := String "013" "".

Definition print (s : string) : M unit := write (s +:+ newline).
Definition print_end (s e : string) : M unit := write (s +:+ e).

(** List objects on the heap. *)
Definition load (r : ref) : M (list Location) :=
  fun w => (Ret (default [] (heap w !! r)), w).

Definition store (r : ref) (l : list Location) : M unit :=
  fun w => (Ret tt, mkWorld (<[r := l]> (heap w)) (stdout w) (calls w)).

Definition fresh_ref (h : gmap nat (list Location)) : ref :=
  S (foldr Nat.max O (elements (dom h))).

Definition alloc (l : list Location) : M ref :=
  fun w =>
    let r := fresh_ref (heap w) in
    (Ret r, mkWorld (<[r := l]> (heap w)) (stdout w) (calls w)).

(** [list.sort(key=lambda x: x[2], reverse=True)]: a stable sort, largest
    key first; [reverse=True] keeps elements with equal keys in their
    original order. *)
Fixpoint insert_desc (x : Location) (l : list Location) : list Location :=
  match l with
  | [] => [x]
  | y :: l' =>
      if loc_size x <? loc_size y then y :: insert_desc x l' else x :: l
  end.

Fixpoint sort_desc (l : list Location) : list Location :=
  match l with
  | [] => []
  | x :: l' => insert_desc x (sort_desc l')
  end.

Definition sort_in_place (r : ref) : M unit :=
  l <- load r ;; store r (sort_desc l).

(** ** The script *)

Module Colors.
Definition ESC : string := String "027" "".
Definition RED : string := ESC +:+ "[0;31m".
Definition GREEN : string := ESC +:+ "[0;32m".
Definition YELLOW : string := ESC +:+ "[1;33m".
Definition BLUE : string := ESC +:+ "[0;34m".
Definition CYAN : string := ESC +:+ "[0;36m".
Definition BOLD : string := ESC +:+ "[1m".
Definition NC : string := ESC +:+ "[0m".
End Colors.

Definition print_colored (text color : string) : M unit :=
  print (color +:+ text +:+ Colors.NC).

(** [bytes_size / (1024 ** 3)], where [1024 ** 3 = 2 ** 30]. *)
Definition bytes_to_gb (bytes_size : Z) : outcome float :=
  int_truediv_pow2 bytes_size 30.

Section Script.

Variable env : Env.

Definition exists_ (path : string) : M bool :=
  fun w => (Ret (path_exists env path), w).

Definition is_dir (path : string) : M bool :=
  fun w => (Ret (path_is_dir env path), w).

(** [subprocess.run]: the command is spawned (and logged) whatever its
    fate. *)
Definition subprocess_run (argv : list string) : M (Z * string) :=
  fun w =>
    let w' := mkWorld (heap w) (stdout w) (calls w ++ [argv]) in
    match run env argv with
    | Completed rc out => (Ret (rc, out), w')
    | Failed e => (Raise e, w')
    end.

Definition probe_errors : list exn :=
  [TimeoutExpired; ValueError; PermissionError; OSError].

Definition get_directory_size (path : string) : M (Z * bool) :=
  try_except
    (ex <- exists_ path ;;
     if negb ex then ret (0, false)
     else
       result <- subprocess_run ["du"; "-sk"; path] ;;
       let '(returncode, out) := result in
       if returncode =? 0 then
         field <- lift (item0 (split out)) ;;
         size_kb <- lift (int field) ;;
         ret (size_kb * 1024, true)
       else ret (0, false))
    probe_errors
    (ret (0, false)).

(** The body of the catalog loop of [scan_system_data_locations];
    [locations] is the list built so far. *)
Definition scan_entry (locations : list Location) (entry : string * string * bool)
  : M (list Location) :=
  let '(path_str, description, requires_sudo) := entry in
  print_end ("Scanning: " +:+ description +:+ "...") carriage_return ;;;
  probe <- get_directory_size path_str ;;
  let '(size_bytes, success) := probe in
  if success && (0 <? size_bytes) then
    let locations := locations ++ [mkLocation path_str description size_bytes requires_sudo] in
    size_gb <- lift (bytes_to_gb size_bytes) ;;
    print_colored ("Found: " +:+ description +:+ " - " +:+ format_2f size_gb +:+ " GB")
                  Colors.GREEN ;;;
    ret locations
  else
    ex <- (if negb success then exists_ path_str else ret false) ;;
    if negb success && ex then
      let locations := locations ++ [mkLocation path_str description 0 requires_sudo] in
      print_colored ("Found: " +:+ description +:+ " - [Permission Denied - may require sudo]")
                    Colors.YELLOW ;;;
      ret locations
    else ret locations.

Fixpoint scan_loop (catalog : list (string * string * bool)) (locations : list Location)
  : M (list Location) :=
  match catalog with
  | [] => ret locations
  | entry :: rest =>
      locations <- scan_entry locations entry ;;
      scan_loop rest locations
  end.

(** [scan_system_data_locations] over a given catalog. *)
Definition scan_locations (system_locations : list (string * string * bool))
  : M (list Location) :=
  print_colored "Scanning system locations... This may take a few minutes." Colors.BLUE ;;;
  print "" ;;;
  locations <- scan_loop system_locations [] ;;
  print "" ;;;
  ret locations.

Definition tab : ascii := "009"%char.
Definition line_feed : ascii := "010"%char.

(** The body of [for line in result.stdout.strip().split('\n')].  The list
    [large_dirs] is a local of the function: it is returned next to the
    outcome, so that what was appended before an exception is still there
    when the [except] clause runs. *)
Fixpoint large_dirs_loop (min_size_gb : float) (lines : list string)
    (large_dirs : list (string * Z)) : list (string * Z) * outcome unit :=
  match lines with
  | [] => (large_dirs, Ret tt)
  | line :: rest =>
      match line with
      | EmptyString => large_dirs_loop min_size_gb rest large_dirs
      | _ =>
          match split_sep tab line with
          | [part0; part1] =>
              match int part0 with
              | Raise e => (large_dirs, Raise e)
              | Ret size_kb =>
                  let dir_path := part1 in
                  if 0 <? size_kb then
                    match bytes_to_gb (size_kb * 1024) with
                    | Raise e => (large_dirs, Raise e)
                    | Ret size_gb =>
                        if float_ge size_gb min_size_gb then
                          large_dirs_loop min_size_gb rest
                            (large_dirs ++ [(dir_path, size_kb * 1024)])
                        else large_dirs_loop min_size_gb rest large_dirs
                    end
                  else large_dirs_loop min_size_gb rest large_dirs
              end
          | _ => large_dirs_loop min_size_gb rest large_dirs
          end
      end
  end.

(** Runs a command and hands its fate to the caller. *)
Definition attempt {A} (c : M A) : M (outcome A) :=
  fun w => let '(o, w') := c w in (Ret o, w').

(** [except classes: pass] followed by [return large_dirs]. *)
Definition except_pass (classes : list exn) (r : list (string * Z) * outcome unit)
  : outcome (list (string * Z)) :=
  match r with
  | (large_dirs, Ret _) => Ret large_dirs
  | (large_dirs, Raise e) =>
      if existsb (subclass e) classes then Ret large_dirs else Raise e
  end.

Definition find_argv (root_path : string) : list string :=
  ["find"; root_path; "-maxdepth"; "1"; "-type"; "d"; "-exec"; "du"; "-sk"; "{}"; ";"].

Definition find_large_directories (root_path : string) (min_size_gb : float)
  : M (list (string * Z)) :=
  let large_dirs : list (string * Z) := [] in
  ex <- exists_ root_path ;;
  isd <- (if ex then is_dir root_path else ret false) ;;
  if negb ex || negb isd then ret large_dirs
  else
    result <- attempt (subprocess_run (find_argv root_path)) ;;
    lift (except_pass probe_errors
      match result with
      | Raise e => (large_dirs, Raise e)
      | Ret (returncode, out) =>
          if returncode =? 0 then
            large_dirs_loop min_size_gb (split_sep line_feed (strip out)) large_dirs
          else (large_dirs, Ret tt)
      end).

End Script.

(** [os.path.expanduser] for ["~"] and ["~/..."] with the home directory
    [home]; other paths are returned as they are. *)
Fixpoint rstrip_slash_rev (s : string) : string :=
  match s with
  | String "/" s' => rstrip_slash_rev s'
  | _ => s
  end.

Definition rstrip_slash (s : string) : string :=
  rev_string "" (rstrip_slash_rev (rev_string "" s)).

Definition expanduser (home path : string) : string :=
  match path with
  | String "~" rest =>
      match rest with
      | EmptyString | String "/" _ =>
          match rstrip_slash home +:+ rest with
          | EmptyString => "/"
          | p => p
          end
      | _ => path
      end
  | _ => path
  end.

(** The catalog of [scan_system_data_locations]. *)
Definition system_locations (home : string) : list (string * string * bool) :=
  [ ("/Library/Caches", "System Caches", true);
    ("/private/var/folders", "System Temporary Files", true);
    ("/private/var/vm", "Virtual Memory Swap Files", true);
    ("/private/var/db", "System Databases", true);
    ("/private/var/log", "System Logs", true);
    ("/System/Library/Caches", "System Library Caches", true);
    ("/.MobileBackups", "Time Machine Local Snapshots", true);
    ("/private/var/db/.MobileBackups", "Time Machine Local Snapshots (Alt)", true);
    (expanduser home "~/Library/Caches", "User Library Caches", false);
    (expanduser home "~/Library/Logs", "User Library Logs", false);
    (expanduser home "~/Library/Application Support", "User Application Support", false);
    (expanduser home "~/Library/Containers", "User App Containers", false);
    (expanduser home "~/Library/Developer", "Xcode & Developer Files", false);
    (expanduser home "~/Library/Containers/com.docker.docker", "Docker Data", false);
    (expanduser home "~/Library/VirtualBox", "VirtualBox VMs", false);
    (expanduser home "~/Library/Application Support/Parallels", "Parallels VMs", false);
    ("/private/var/containers", "System App Containers", true);
    ("/.Spotlight-V100", "Spotlight Index", true);
    (expanduser home "~/.Spotlight-V100", "User Spotlight Index", false);
    (expanduser home "~/Library/Mail", "Mail Data", false);
    (expanduser home "~/Library/Application Support/MobileSync/Backup", "iOS Device Backups", false);
    ("/opt/homebrew", "Homebrew (Apple Silicon)", true);
    ("/usr/local", "Homebrew (Intel)", true);
    (expanduser home "~/node_modules", "Node Modules (Home)", false);
    (expanduser home "~/.Trash", "Trash", false) ].

Definition scan_system_data_locations (env : Env) (home : string) : M (list Location) :=
  scan_locations env (system_locations home).

(** ** The report *)

(** [max(... for row in locations) if locations else 0] *)
Definition max_of (l : list Z) : Z :=
  match l with
  | [] => 0
  | x :: rest => fold_left Z.max rest x
  end.

Definition path_width_of (locations : list Location) : Z :=
  Z.max 60 (Z.min (max_of (map (fun row => len (loc_path row)) locations) + 2) 80).

Definition desc_width_of (locations : list Location) : Z :=
  Z.max 35 (Z.min (max_of (map (fun row => len (loc_desc row)) locations) + 2) 50).

Definition size_width : Z := 15.
Definition perm_width : Z := 12.

(** [path if len(path) <= path_width - 2 else "..." + path[-(path_width-5):]] *)
Definition display_path (path_width : Z) (path : string) : string :=
  if len path <=? path_width - 2 then path
  else "..." +:+ slice_from path (- (path_width - 5)).

(** ["sudo needed" if requires_sudo and size_bytes == 0 else "user access"] *)
Definition perm_text (requires_sudo : bool) (size_bytes : Z) : string :=
  if requires_sudo && (size_bytes =? 0) then "sudo needed" else "user access".

Definition header_line (path_width desc_width : Z) : string :=
  ljust "Path" path_width +:+ " " +:+ ljust "Description" desc_width +:+ " " +:+
  ljust "Size" size_width +:+ " " +:+ ljust "Permission" perm_width.

Definition row_line (path_width desc_width : Z) (l : Location) (size_gb : float) : string :=
  ljust (display_path path_width (loc_path l)) path_width +:+ " " +:+
  ljust (loc_desc l) desc_width +:+ " " +:+
  rjust (format_2f size_gb) 10 +:+ " GB " +:+
  ljust (perm_text (loc_sudo l) (loc_size l)) perm_width.

(** The [for] loop of [print_results_table]; [total_size] is the running
    total. *)
Fixpoint rows_loop (path_width desc_width : Z) (locations : list Location)
    (total_size : Z) : M Z :=
  match locations with
  | [] => ret total_size
  | l :: rest =>
      let total_size := total_size + loc_size l in
      size_gb <- lift (bytes_to_gb (loc_size l)) ;;
      print (row_line path_width desc_width l size_gb) ;;;
      rows_loop path_width desc_width rest total_size
  end.

(** [print_results_table(locations)]; [locations] is a reference to the
    caller's list object, which [list.sort] reorders in place. *)
Definition print_results_table (locations : ref) : M unit :=
  content <- load locations ;;
  match content with
  | [] => print_colored "No large directories found." Colors.YELLOW
  | _ =>
      sort_in_place locations ;;;
      rows <- load locations ;;
      let path_width := path_width_of rows in
      let desc_width := desc_width_of rows in
      print_colored (header_line path_width desc_width) (Colors.BOLD +:+ Colors.CYAN) ;;;
      print_colored (str_mul "=" (path_width + desc_width + size_width + perm_width))
                    Colors.CYAN ;;;
      total_size <- rows_loop path_width desc_width rows 0 ;;
      print "" ;;;
      total_gb <- lift (bytes_to_gb total_size) ;;
      print_colored ("Total Scanned: " +:+ format_2f total_gb +:+ " GB")
                    (Colors.BOLD +:+ Colors.GREEN) ;;;
      print ""
  end.

(** The part of [main] that scans and reports:
    [locations = scan_system_data_locations()] binds the fresh list object,
    [print_results_table(locations)] receives a reference to it. *)
Definition report (env : Env) (catalog : list (string * string * bool)) : M ref :=
  locations <- scan_locations env catalog ;;
  r <- alloc locations ;;
  print_colored (str_mul "=" 100) Colors.BLUE ;;;
  print_colored "RESULTS:" (Colors.BOLD +:+ Colors.YELLOW) ;;;
  print "" ;;;
  print_results_table r ;;;
  ret r.

(** The order of the table and the records of one size. *)
Definition size_ge (a b : Location) : Prop := loc_size a >= loc_size b.

Definition has_size (k : Z) (l : Location) : bool := loc_size l =? k.

(** ** Reading the output back

    A table row is the only thing the script prints that ends with the
    permission column (padded to [perm_width]) and a line feed; status
    lines end with the colour reset, progress lines with a carriage
    return. *)
Definition is_row (line : string) : bool :=
  endswith ("sudo needed " +:+ newline) line || endswith ("user access " +:+ newline) line.

Definition table_rows (out : list string) : list string := List.filter is_row out.

(** The conversion to gigabytes of [n] bytes is defined (no
    [OverflowError]). *)
Definition fits (n : Z) : bool :=
  match bytes_to_gb n with
  | Ret _ => true
  | Raise _ => false
  end.

Definition total_size_of (locations : list Location) : Z :=
  fold_right (fun l acc => loc_size l + acc) 0 locations.

(** The two lines above the rows and the line below them, as
    [print_colored] writes them. *)
Definition colored_line (text color : string) : string :=
  (color +:+ text +:+ Colors.NC) +:+ newline.

Definition total_line (total_gb : float) : string :=
  colored_line ("Total Scanned: " +:+ format_2f total_gb +:+ " GB")
               (Colors.BOLD +:+ Colors.GREEN).

Definition table_head (locations : list Location) : list string :=
  let pw := path_width_of locations in
  let dw := desc_width_of locations in
  [ colored_line (header_line pw dw) (Colors.BOLD +:+ Colors.CYAN);
    colored_line (str_mul "=" (pw + dw + size_width + perm_width)) Colors.CYAN ].

(** [line] is the row printed for [l] in a table with these widths. *)
Definition renders (path_width desc_width : Z) (l : Location) (line : string) : Prop :=
  exists size_gb,
    bytes_to_gb (loc_size l) = Ret size_gb /\
    line = row_line path_width desc_width l size_gb +:+ newline.

(** ** A file system with its [du] and [find]

    A concrete environment: a directory tree mounted at a path, every
    entry readable, the two utilities behaving as documented.  [du -sk]
    prints the kilobytes of an entry and of everything below it, a tab and
    the path.  [find p -maxdepth k -type d -exec du -sk {} ;] visits [p]
    itself (depth 0) and what lies at most [k] levels below, and runs [du]
    on every directory it visits. *)
#[warnings="-register-all"]
Inductive node : Type :=
  | File (name : string) (kb : Z)
  | Dir (name : string) (kb : Z) (children : list node).

Definition node_name (n : node) : string :=
  match n with
  | File name _ => name
  | Dir name _ _ => name
  end.

Definition join (dir name : string) : string :=
  if endswith "/" dir then dir +:+ name else dir +:+ "/" +:+ name.

Fixpoint du_kb (n : node) : Z :=
  match n with
  | File _ kb => kb
  | Dir _ kb children => kb + fold_right Z.add 0 (map du_kb children)
  end.

(** Every entry of the tree with its path. *)
Fixpoint walk (n : node) (path : string) : list (string * node) :=
  (path, n) ::
  match n with
  | File _ _ => []
  | Dir _ _ children => flat_map (fun c => walk c (join path (node_name c))) children
  end.

(** The directories that [find path -maxdepth k -type d] visits. *)
Fixpoint find_dirs (n : node) (path : string) (maxdepth : nat) : list (string * node) :=
  match n with
  | File _ _ => []
  | Dir _ _ children =>
      (path, n) ::
      match maxdepth with
      | O => []
      | S k => flat_map (fun c => find_dirs c (join path (node_name c)) k) children
      end
  end.

Definition is_dir_node (n : node) : bool :=
  match n with
  | Dir _ _ _ => true
  | File _ _ => false
  end.

(** The immediate subdirectories of a directory at [path]. *)
Definition subdirectories (path : string) (children : list node) : list (string * node) :=
  map (fun c => (join path (node_name c), c)) (List.filter is_dir_node children).

(** [str(n)] for an integer. *)
Definition str_of_int (n : Z) : string :=
  if n <? 0 then "-" +:+ str_of_nat_Z (- n) else str_of_nat_Z n.

Definition du_line (entry : string * node) : string :=
  str_of_int (du_kb (snd entry)) +:+ String tab (fst entry) +:+ newline.

Fixpoint concat_strings (l : list string) : string :=
  match l with
  | [] => ""
  | x :: rest => x +:+ concat_strings rest
  end.

Definition lookup_path (root : string) (tree : node) (p : string) : option node :=
  match List.filter (fun entry => String.eqb (fst entry) p) (walk tree root) with
  | entry :: _ => Some (snd entry)
  | [] => None
  end.

Fixpoint strings_eqb (a b : list string) : bool :=
  match a, b with
  | [], [] => true
  | x :: a', y :: b' => String.eqb x y && strings_eqb a' b'
  | _, _ => false
  end.

Definition fs_run (root : string) (tree : node) (argv : list string) : run_result :=
  match argv with
  | [cmd; opt; p] =>
      if String.eqb cmd "du" && String.eqb opt "-sk" then
        match lookup_path root tree p with
        | Some n => Completed 0 (du_line (p, n))
        | None => Completed 1 ""
        end
      else Failed FileNotFoundError
  | cmd :: p :: opt :: depth :: rest =>
      if String.eqb cmd "find" && String.eqb opt "-maxdepth" &&
         strings_eqb rest ["-type"; "d"; "-exec"; "du"; "-sk"; "{}"; ";"] then
        match lookup_path root tree p, int depth with
        | Some n, Ret k =>
            Completed 0 (concat_strings (map du_line (find_dirs n p (Z.to_nat k))))
        | _, _ => Completed 1 ""
        end
      else Failed FileNotFoundError
  | _ => Failed FileNotFoundError
  end.

Definition fs_env (root : string) (tree : node) : Env :=
  {| path_exists := fun p =>
       match lookup_path root tree p with Some _ => true | None => false end;
     path_is_dir := fun p =>
       match lookup_path root tree p with Some (Dir _ _ _) => true | _ => false end;
     run := fs_run root tree |}.

(** [1.0], the default of [min_size_gb], and [0.5], what [main] passes. *)
Definition float_one : float := S754_finite false 4503599627370496 (-52).
Definition float_half : float := S754_finite false 4503599627370496 (-53).

(** The world after a command has been spawned. *)
Definition spawned (w : World) (argv : list string) : World :=
  mkWorld (heap w) (stdout w) (calls w ++ [argv]).

(** ** Probes

    The outcome of [get_directory_size] depends on the environment only, so
    the probe of a path can be named without a world. *)
Definition probe (env : Env) (path : string) : outcome (Z * bool) :=
  fst (get_directory_size env path (mkWorld ∅ [] [])).

Definition entry_path (entry : string * string * bool) : string := fst (fst entry).

(** The probe of the entry succeeded. *)
Definition probe_succeeded (env : Env) (entry : string * string * bool) : bool :=
  match probe env (entry_path entry) with
  | Ret (_, true) => true
  | _ => false
  end.

(** The path exists but its probe failed. *)
Definition permission_denied (env : Env) (entry : string * string * bool) : bool :=
  match probe env (entry_path entry) with
  | Ret (_, false) => path_exists env (entry_path entry)
  | _ => false
  end.

(** The entry passes one of the two tests of the catalog loop. *)
Definition listed (env : Env) (entry : string * string * bool) : bool :=
  match probe env (entry_path entry) with
  | Ret (size_bytes, true) => 0 <? size_bytes
  | Ret (_, false) => path_exists env (entry_path entry)
  | Raise _ => false
  end.

(** The record that a listed entry contributes. *)
Definition record_of (env : Env) (entry : string * string * bool) : Location :=
  let '(path_str, description, requires_sudo) := entry in
  match probe env path_str with
  | Ret (size_bytes, true) => mkLocation path_str description size_bytes requires_sudo
  | _ => mkLocation path_str description 0 requires_sudo
  end.

(** Nothing escapes from the probe of the entry, and a size that it found
    can be shown in gigabytes. *)
Definition probe_safe (env : Env) (entry : string * string * bool) : bool :=
  match probe env (entry_path entry) with
  | Ret (size_bytes, true) => (size_bytes <=? 0) || fits size_bytes
  | Ret (_, false) => true
  | Raise _ => false
  end.

Definition listed_records (env : Env) (catalog : list (string * string * bool))
  : list Location :=
  map (record_of env) (List.filter (listed env) catalog).

(** ** Worked examples *)

Definition empty_world : World := mkWorld ∅ [] [].

(** Two user directories of 2 GB and 5 GB. *)
Definition locations_ab : list Location :=
  [ mkLocation "/tmp/a" "A" (2 * 1024 ^ 3) false;
    mkLocation "/tmp/b" "B" (5 * 1024 ^ 3) false ].

Definition world_ab : World := mkWorld {[ 1%nat := locations_ab ]} [] [].

(** Records of equal size around a larger one, one of them unreadable. *)
Definition locations_ties : list Location :=
  [ mkLocation "/private/var/db" "System Databases" 0 true;
    mkLocation "/usr/local" "Homebrew (Intel)" 4096 true;
    mkLocation "/Users/u/.Trash" "Trash" 0 false;
    mkLocation "/opt/homebrew" "Homebrew (Apple Silicon)" 4096 true ].

Definition world_ties : World := mkWorld {[ 7%nat := locations_ties ]} [] [].

(** A path of 79 characters and one of 90. *)
Definition path79 : string := "/" +:+ str_mul "a" 78.
Definition path90 : string := "/Users/u/" +:+ str_mul "b" 77 +:+ "/end".

Definition locations_long : list Location :=
  [ mkLocation path79 "Long" 1024 false ].

Definition record_longer : Location := mkLocation path90 "Longer" 1024 false.

Definition locations_longer : list Location :=
  [ record_longer; mkLocation "/tmp" "Short" 2048 false ].

(** ** The specification's wording of the truncation rule

    "A path longer than the path column width is rendered with a leading
    ["..."] and its final characters, total length equal to the column
    width; other paths are rendered unmodified." *)
Definition truncation_as_stated (locations : list Location) (path : string) : Prop :=
  let path_width := path_width_of locations in
  let cell := display_path path_width path in
  (path_width < len path ->
     (exists tail, endswith tail path = true /\ cell = "..." +:+ tail) /\
     len cell = path_width) /\
  (len path <= path_width -> cell = path).

(** An empty directory, for which [du -sk] prints 0. *)
Definition env_empty_dir : Env := fs_env "/opt/homebrew" (Dir "homebrew" 0 []).

Definition catalog_empty_dir : list (string * string * bool) :=
  [ ("/opt/homebrew", "Homebrew (Apple Silicon)", true) ].

(** A directory of exactly 1048576 kilobytes, one that is missing and one
    whose probe fails. *)
Definition env_one_gb : Env :=
  {| path_exists := fun p => String.eqb p "/data" || String.eqb p "/private/var/db";
     path_is_dir := fun p => String.eqb p "/data" || String.eqb p "/private/var/db";
     run := fun argv =>
       if strings_eqb argv ["du"; "-sk"; "/data"]
       then Completed 0 ("1048576" +:+ String tab "/data" +:+ newline)
       else Completed 1 "" |}.

Definition catalog_one_gb : list (string * string * bool) :=
  [ ("/missing", "Not there", false);
    ("/private/var/db", "System Databases", true);
    ("/data", "Data", false) ].

(** A [du] that exits with status 0 and prints nothing. *)
Definition env_silent_du : Env :=
  {| path_exists := fun _ => true;
     path_is_dir := fun _ => true;
     run := fun _ => Completed 0 "" |}.

(** A directory [/Library] with two subdirectories, one of 2 GB, and a
    file. *)
Definition tree_library : node :=
  Dir "Library" 4 [ Dir "Caches" 2097152 []; Dir "Logs" 512 []; File "notes.txt" 8 ].

(** A [find] whose second line has no number in front of the tab, as
    happens for a directory with a line feed and a tab in its name. *)
Definition env_bad_line : Env :=
  {| path_exists := fun _ => true;
     path_is_dir := fun _ => true;
     run := fun _ =>
       Completed 0 ("2097152" +:+ String tab "/r/a" +:+ newline +:+
                    "n/a" +:+ String tab "/r/b" +:+ newline +:+
                    "3145728" +:+ String tab "/r/c" +:+ newline) |}.

(** A [find] that runs into its timeout. *)
Definition env_timeout : Env :=
  {| path_exists := fun _ => true;
     path_is_dir := fun _ => true;
     run := fun _ => Failed TimeoutExpired |}.

(** ** The specification's wording of the failure of the subdirectory scan

    "When it fails (... unparsable output) it returns an empty sequence
    rather than propagating an error or a partial result." *)
Definition unparsable_gives_empty (env : Env) (root : string) (min_size_gb : float) : Prop :=
  forall out line part0 part1,
    run env (find_argv root) = Completed 0 out ->
    In line (split_sep line_feed (strip out)) ->
    split_sep tab line = [part0; part1] ->
    int part0 = Raise ValueError ->
    fst (find_large_directories env root min_size_gb empty_world) = Ret [].

(** ** The specification's wording of the row count

    "The number of rendered rows equals the number of probes that succeeded
    or were permission-denied." *)
Definition rows_count_as_stated (env : Env) (catalog : list (string * string * bool)) : Prop :=
  length (table_rows (stdout (snd (report env catalog empty_world)))) =
  length (List.filter (fun entry => probe_succeeded env entry || permission_denied env entry)
                      catalog).

(** ** The rest of [main]

    After the report [main] looks below three roots for large
    directories, asks [tmutil] for local snapshots and prints two tips.
    [platform] is [sys.platform], [home] the home directory that
    [os.path.expanduser] finds. *)

(** [large_dirs.sort(key=lambda x: x[1], reverse=True)], stable as every
    [list.sort]. *)
Fixpoint insert_dir_desc (x : string * Z) (l : list (string * Z)) : list (string * Z) :=
  match l with
  | [] => [x]
  | y :: l' => if snd x <? snd y then y :: insert_dir_desc x l' else x :: l
  end.

Fixpoint sort_dirs_desc (l : list (string * Z)) : list (string * Z) :=
  match l with
  | [] => []
  | x :: l' => insert_dir_desc x (sort_dirs_desc l')
  end.

Definition key_locations (home : string) : list (string * string) :=
  [ (expanduser home "~/Library", "User Library subdirectories");
    ("/Library", "System Library subdirectories");
    ("/private/var", "System var subdirectories") ].

Definition dir_line (dir_path : string) (size_gb : float) : string :=
  ("  " +:+ dir_path +:+ ": " +:+ format_2f size_gb +:+ " GB") +:+ newline.

(** [for dir_path, size_bytes in large_dirs[:10]], given the slice. *)
Fixpoint print_dirs (dirs : list (string * Z)) : M unit :=
  match dirs with
  | [] => ret tt
  | (dir_path, size_bytes) :: rest =>
      size_gb <- lift (bytes_to_gb size_bytes) ;;
      print ("  " +:+ dir_path +:+ ": " +:+ format_2f size_gb +:+ " GB") ;;;
      print_dirs rest
  end.

(** The body of [for root_path, desc in key_locations]. *)
Definition scan_key_location (env : Env) (entry : string * string) : M unit :=
  let '(root_path, desc) := entry in
  ex <- exists_ env root_path ;;
  if ex then
    print_colored ("Scanning " +:+ desc +:+ "...") Colors.CYAN ;;;
    large_dirs <- find_large_directories env root_path float_half ;;
    match large_dirs with
    | [] => ret tt
    | _ =>
        let large_dirs := sort_dirs_desc large_dirs in
        print_colored ("Large directories in " +:+ desc +:+ ":") Colors.YELLOW ;;;
        print_dirs (firstn 10 large_dirs) ;;;
        print ""
    end
  else ret tt.

Fixpoint scan_key_locations (env : Env) (roots : list (string * string)) : M unit :=
  match roots with
  | [] => ret tt
  | entry :: rest => scan_key_location env entry ;;; scan_key_locations env rest
  end.

(** The first characters of two literals of the script, byte by byte as
    the source file has them. *)
Definition warning_mark : string :=
  String "195" (String "162" (String "197" (String "161" (String "194" (String "160"
  (String "195" (String "175" (String "194" (String "184" EmptyString))))))))).

Definition tip_mark : string :=
  String "195" (String "176" (String "197" (String "184" (String "226" (String "128"
  (String "153" (String "194" (String "161" EmptyString)))))))).

Definition tmutil_argv : list string := ["tmutil"; "listlocalsnapshots"; "/"].

Definition snapshot_errors : list exn := [TimeoutExpired; FileNotFoundError; PermissionError].

(** The lines of the listing that name a snapshot. *)
Definition snapshots_of (out : string) : list string :=
  List.filter (startswith "com.apple.TimeMachine") (split_sep line_feed (strip out)).

(** The check for Time Machine local snapshots. *)
Definition check_snapshots (env : Env) : M unit :=
  print_colored "Checking for Time Machine local snapshots..." Colors.BLUE ;;;
  try_except
    (result <- subprocess_run env tmutil_argv ;;
     let '(returncode, out) := result in
     if (returncode =? 0) && negb (String.eqb (strip out) "") then
       let snapshots := snapshots_of out in
       match snapshots with
       | [] => ret tt
       | _ =>
           print_colored (warning_mark +:+ "  Found " +:+
                          str_of_int (Z.of_nat (length snapshots)) +:+
                          " Time Machine local snapshots!") Colors.YELLOW ;;;
           print_colored "   These can take up significant space. To delete them:"
                         Colors.YELLOW ;;;
           print_colored "   sudo tmutil deletelocalsnapshots <snapshot-date>" Colors.CYAN ;;;
           print_colored "   Or delete all: sudo tmutil deletelocalsnapshots /" Colors.CYAN ;;;
           print ""
       end
     else ret tt)
    snapshot_errors
    (ret tt).

(** How [main] ends: it returns, or it calls [sys.exit]. *)
Inductive ending : Type :=
  | Returned
  | Exited (code : Z).

Definition banner : M unit :=
  print_colored (str_mul "=" 100) Colors.BLUE ;;;
  print_colored "        SYSTEM DATA LOCATION FINDER FOR macOS" (Colors.BOLD +:+ Colors.BLUE) ;;;
  print_colored (str_mul "=" 100) Colors.BLUE ;;;
  print "".

Definition tips : M unit :=
  print_colored (str_mul "=" 100) Colors.BLUE ;;;
  print_colored (tip_mark +:+ " TIP: Some locations may require sudo to access. " +:+
                 "Use 'sudo du -sh <path>' to check.") Colors.CYAN ;;;
  print_colored (tip_mark +:+ " TIP: To check specific directory: du -sh <path>")
                Colors.CYAN ;;;
  print "".

Definition main (env : Env) (platform home : string) : M ending :=
  banner ;;;
  if negb (String.eqb platform "darwin") then
    print_colored (warning_mark +:+ "  WARNING: This script is designed for macOS only!")
                  Colors.YELLOW ;;;
    ret (Exited 1)
  else
    report env (system_locations home) ;;;
    print_colored "Scanning for large subdirectories in key locations..." Colors.BLUE ;;;
    print "" ;;;
    scan_key_locations env (key_locations home) ;;;
    check_snapshots env ;;;
    tips ;;;
    ret Returned.

(** The [if __name__ == "__main__"] block: the exit status of the process
    and the world it leaves.  [str_exn] is [str(e)]; the traceback goes to
    standard error, which the world does not record.  [sys.exit] inside
    [main] is not an [Exception] and passes through both handlers. *)
Definition script (env : Env) (platform home : string) (str_exn : exn -> string)
  : World -> Z * World :=
  fun w =>
    match main env platform home w with
    | (Ret Returned, w') => (0, w')
    | (Ret (Exited code), w') => (code, w')
    | (Raise KeyboardInterrupt, w') =>
        (1, snd ((print "" ;;;
                  print_colored (newline +:+ "Operation cancelled by user (Ctrl+C).")
                                Colors.YELLOW) w'))
    | (Raise e, w') =>
        (1, snd (print_colored (newline +:+ "Unexpected error: " +:+ str_exn e)
                               Colors.RED w'))
    end.

(** The commands that the probe of a path spawns. *)
Definition spawned_by_probe (env : Env) (path : string) : list (list string) :=
  if path_exists env path then [["du"; "-sk"; path]] else [].

(** The commands of a scan that nothing interrupts: [du -sk] for the
    catalog paths that exist, in catalog order. *)
Definition du_calls (env : Env) (catalog : list (string * string * bool))
  : list (list string) :=
  map (fun entry => ["du"; "-sk"; entry_path entry])
      (List.filter (fun entry => path_exists env (entry_path entry)) catalog).

(** The entry that a line of the listing stands for: a size field that
    reads as a positive number of kilobytes, a tab, the path, and a size in
    gigabytes that reaches the threshold. *)
Definition line_gives (min_size_gb : float) (line : string) (d : string * Z) : Prop :=
  exists part0 size_kb size_gb,
    split_sep tab line = [part0; fst d] /\
    int part0 = Ret size_kb /\
    0 < size_kb /\
    snd d = size_kb * 1024 /\
    bytes_to_gb (snd d) = Ret size_gb /\
    float_ge size_gb min_size_gb = true.

Definition listing_gives (min_size_gb : float) (lines : list string) (d : string * Z)
  : Prop :=
  exists line, In line lines /\ line_gives min_size_gb line d.

(** The order of the subdirectory listing: larger sizes first. *)
Definition dir_ge (a b : string * Z) : Prop := snd a >= snd b.

(** [line] is what the subdirectory pass prints for the entry [d]. *)
Definition shows_dir (d : string * Z) (line : string) : Prop :=
  exists size_gb, bytes_to_gb (snd d) = Ret size_gb /\ line = dir_line (fst d) size_gb.

(** The five lines of the snapshot warning for [n] snapshots. *)
Definition snapshot_warning (n : nat) : list string :=
  [ colored_line (warning_mark +:+ "  Found " +:+ str_of_int (Z.of_nat n) +:+
                  " Time Machine local snapshots!") Colors.YELLOW;
    colored_line "   These can take up significant space. To delete them:" Colors.YELLOW;
    colored_line "   sudo tmutil deletelocalsnapshots <snapshot-date>" Colors.CYAN;
    colored_line "   Or delete all: sudo tmutil deletelocalsnapshots /" Colors.CYAN;
    newline ].

Definition snapshot_heading : string :=
  colored_line "Checking for Time Machine local snapshots..." Colors.BLUE.

Definition banner_lines : list string :=
  [ colored_line (str_mul "=" 100) Colors.BLUE;
    colored_line "        SYSTEM DATA LOCATION FINDER FOR macOS" (Colors.BOLD +:+ Colors.BLUE);
    colored_line (str_mul "=" 100) Colors.BLUE;
    newline ].

(** A [tmutil] that lists two snapshots and a line of another kind. *)
Definition env_snapshots : Env :=
  {| path_exists := fun _ => false;
     path_is_dir := fun _ => false;
     run := fun _ =>
       Completed 0 ("Snapshots for disk /:" +:+ newline +:+
                    "com.apple.TimeMachine.2024-01-01-000000.local" +:+ newline +:+
                    "com.apple.TimeMachine.2024-01-02-000000.local" +:+ newline) |}.

(** The last line of a run that was cancelled, and of one that failed. *)
Definition cancelled_line : string :=
  colored_line (newline +:+ "Operation cancelled by user (Ctrl+C).") Colors.YELLOW.

Definition unexpected_line (message : string) : string :=
  colored_line (newline +:+ "Unexpected error: " +:+ message) Colors.RED.

(** * Properties *)

(** ** The Python primitives on examples *)

Example int_examples :
  int "1048576" = Ret 1048576 /\ int " -12 " = Ret (-12) /\ int "1_000" = Ret 1000 /\
  int "" = Raise ValueError /\ int "1__0" = Raise ValueError /\ int "12k" = Raise ValueError.
Proof. repeat split; reflexivity. Qed.

(** The file separator (code 28) is white space for [str.strip] and
    [str.split], not for [int]; a tab is white space for all three. *)
Example int_separator_examples :
  int (String "028" "7") = Raise ValueError /\
  int (String "009" "7 ") = Ret 7 /\
  strip (String "028" "7") = "7" /\
  split (String "028" "7") = ["7"] /\
  split_sep "009" (String "028" "7	/a") = [String "028" "7"; "/a"].
Proof. repeat split; reflexivity. Qed.

Example split_examples :
  split "  12   /a b  " = ["12"; "/a"; "b"] /\ split "   " = [] /\
  split_sep "009" "1	/a" = ["1"; "/a"] /\ split_sep "010" "" = [""].
Proof. repeat split; reflexivity. Qed.

Example format_examples :
  option_map format_2f (match int_truediv_pow2 1073741824 30 with Ret x => Some x | _ => None end) = Some "1.00" /\
  option_map format_2f (match int_truediv_pow2 134217728 30 with Ret x => Some x | _ => None end) = Some "0.12" /\
  option_map format_2f (match int_truediv_pow2 (-1) 30 with Ret x => Some x | _ => None end) = Some "-0.00" /\
  option_map format_2f (match int_truediv_pow2 5000000000 30 with Ret x => Some x | _ => None end) = Some "4.66".
Proof. repeat split; vm_compute; reflexivity. Qed.

(** ** Strings *)

Section StringFacts.

Lemma append_cons (c : ascii) (s t : string) : String c s +:+ t = String c (s +:+ t).
Proof. reflexivity. Qed.

Lemma append_nil (t : string) : "" +:+ t = t.
Proof. reflexivity. Qed.

Lemma length_app (s t : string) :
  String.length (s +:+ t) = (String.length s + String.length t)%nat.
Proof.
  induction s as [|c s IH]; [reflexivity|].
  rewrite append_cons. simpl. now rewrite IH.
Qed.

Lemma len_app (s t : string) : len (s +:+ t) = len s + len t.
Proof. unfold len. rewrite length_app. lia. Qed.

Lemma len_nonneg (s : string) : 0 <= len s.
Proof. unfold len. lia. Qed.

Lemma app_assoc_string (s t u : string) : (s +:+ t) +:+ u = s +:+ t +:+ u.
Proof.
  induction s as [|c s IH]; [reflexivity|].
  rewrite !append_cons. now rewrite IH.
Qed.

Lemma app_empty_r (s : string) : s +:+ "" = s.
Proof.
  induction s as [|c s IH]; [reflexivity|].
  rewrite append_cons. now rewrite IH.
Qed.

Lemma length_repeat_char (c : ascii) (n : nat) : String.length (repeat_char c n) = n.
Proof. induction n as [|n IH]; simpl; [reflexivity | now rewrite IH]. Qed.

Lemma len_str_mul (c : ascii) (n : Z) : len (str_mul c n) = Z.max 0 n.
Proof. unfold len, str_mul. rewrite length_repeat_char. lia. Qed.

Lemma len_ljust (s : string) (w : Z) : len (ljust s w) = Z.max (len s) w.
Proof. unfold ljust. rewrite len_app, len_str_mul. lia. Qed.

Lemma ljust_exact (s : string) (w : Z) : w <= len s -> ljust s w = s.
Proof.
  intros H. unfold ljust, str_mul.
  replace (Z.to_nat (w - len s)) with O by lia. apply app_empty_r.
Qed.

Lemma take_drop (n : nat) (s : string) : take_chars n s +:+ drop_chars n s = s.
Proof.
  revert s. induction n as [|n IH]; intros [|c s]; simpl; try reflexivity.
  rewrite append_cons. now rewrite IH.
Qed.

Lemma length_drop (n : nat) (s : string) :
  String.length (drop_chars n s) = (String.length s - n)%nat.
Proof.
  revert s. induction n as [|n IH]; intros [|c s]; simpl; try reflexivity; try lia.
  apply IH.
Qed.

Lemma rev_string_app (acc s : string) :
  rev_string acc s = rev_string "" s +:+ acc.
Proof.
  revert acc. induction s as [|c s IH]; intros acc; simpl; [reflexivity|].
  rewrite IH, (IH (String c "")). rewrite app_assoc_string. reflexivity.
Qed.

Lemma rev_string_append (s t : string) :
  rev_string "" (s +:+ t) = rev_string "" t +:+ rev_string "" s.
Proof.
  induction s as [|c s IH].
  - rewrite append_nil. simpl. now rewrite app_empty_r.
  - rewrite append_cons. simpl.
    rewrite (rev_string_app (String c "")), IH.
    rewrite (rev_string_app (String c "") s). now rewrite app_assoc_string.
Qed.

Lemma startswith_app (p s : string) : startswith p (p +:+ s) = true.
Proof.
  induction p as [|c p IH]; [reflexivity|].
  rewrite append_cons. simpl. now rewrite Ascii.eqb_refl, IH.
Qed.

Lemma endswith_app (p s : string) : endswith p (s +:+ p) = true.
Proof. unfold endswith. rewrite rev_string_append. apply startswith_app. Qed.

Lemma startswith_app_l (p s t : string) :
  startswith p s = true -> startswith p (s +:+ t) = true.
Proof.
  revert s. induction p as [|c p IH]; intros [|d s] H; try reflexivity; try discriminate.
  rewrite append_cons. simpl in *.
  apply andb_prop in H as [-> H]. now rewrite IH.
Qed.

Lemma endswith_app_r (p a s : string) :
  endswith p s = true -> endswith p (a +:+ s) = true.
Proof.
  unfold endswith. intros H. rewrite rev_string_append. now apply startswith_app_l.
Qed.

End StringFacts.

(** ** The range of the conversion to gigabytes

    [binary_normalize] never overflows on an integer of at most 1023 + k
    bits that is scaled by 2^-k, so no size that a disk can have raises
    [OverflowError] in [bytes_to_gb]. *)

Section FloatRange.

Lemma digits2_pos_size (p : positive) : digits2_pos p = Pos.size p.
Proof. induction p as [p IH|p IH|]; simpl; now rewrite ?IH. Qed.

Lemma Zdigits2_nonneg (m : Z) : 0 <= Zdigits2 m.
Proof. destruct m; simpl; lia. Qed.

Lemma Zdigits2_upper (m : Z) : 0 <= m -> m < 2 ^ Zdigits2 m.
Proof.
  destruct m as [|p|p]; intros H; [reflexivity | | lia].
  simpl Zdigits2. rewrite digits2_pos_size.
  pose proof (Pos.size_gt p) as Hp.
  apply Pos2Z.pos_lt_pos in Hp. now rewrite Pos2Z.inj_pow in Hp.
Qed.

Lemma Zdigits2_le (m k : Z) : 0 <= m -> 0 <= k -> m < 2 ^ k -> Zdigits2 m <= k.
Proof.
  destruct m as [|p|p]; intros H Hk Hm; [simpl; lia | | lia].
  simpl Zdigits2. rewrite digits2_pos_size.
  pose proof (Pos.size_le p) as Hp.
  apply Pos2Z.pos_le_pos in Hp. rewrite Pos2Z.inj_pow in Hp.
  assert (2 ^ Z.pos (Pos.size p) < 2 ^ (k + 1)) as Hlt.
  { rewrite Z.pow_add_r by lia. change (2 ^ 1) with 2. lia. }
  apply Z.pow_lt_mono_r_iff in Hlt; lia.
Qed.

Lemma shr_1_m (mrs : shr_record) :
  0 <= shr_m mrs -> shr_m (shr_1 mrs) = shr_m mrs / 2.
Proof.
  destruct mrs as [m r s]. simpl. intros H.
  destruct m as [|[p|p|]|p]; simpl; try lia; try reflexivity.
  - apply (Z.div_unique _ _ _ 1); lia.
  - apply (Z.div_unique _ _ _ 0); lia.
Qed.

Lemma iter_shr_1_m (p : positive) :
  forall mrs, 0 <= shr_m mrs ->
    shr_m (SpecFloat.iter_pos shr_1 p mrs) = shr_m mrs / 2 ^ Zpos p.
Proof.
  induction p as [p IH|p IH|]; intros mrs H; simpl SpecFloat.iter_pos.
  - assert (H1 : 0 <= shr_m (shr_1 mrs)).
    { rewrite shr_1_m by exact H. apply Z.div_pos; lia. }
    assert (H2 : 0 <= shr_m (SpecFloat.iter_pos shr_1 p (shr_1 mrs))).
    { rewrite IH by exact H1. apply Z.div_pos; lia. }
    rewrite IH by exact H2. rewrite IH by exact H1. rewrite shr_1_m by exact H.
    rewrite !Z.div_div by lia. f_equal.
    replace (Z.pos p~1) with (1 + Z.pos p + Z.pos p) by lia.
    rewrite !Z.pow_add_r by lia. change (2 ^ 1) with 2. lia.
  - assert (H2 : 0 <= shr_m (SpecFloat.iter_pos shr_1 p mrs)).
    { rewrite IH by exact H. apply Z.div_pos; lia. }
    rewrite IH by exact H2. rewrite IH by exact H.
    rewrite Z.div_div by lia. f_equal.
    replace (Z.pos p~0) with (Z.pos p + Z.pos p) by lia.
    rewrite Z.pow_add_r by lia. lia.
  - rewrite shr_1_m by exact H. reflexivity.
Qed.

Lemma shr_record_of_loc_m (m : Z) (l : location) : shr_m (shr_record_of_loc m l) = m.
Proof. destruct l as [|[| |]]; reflexivity. Qed.

Lemma shr_fexp_m (m e : Z) (l : location) :
  0 <= m ->
  snd (shr_fexp 53 1024 m e l) = Z.max e (fexp 53 1024 (Zdigits2 m + e)) /\
  shr_m (fst (shr_fexp 53 1024 m e l)) = m / 2 ^ (snd (shr_fexp 53 1024 m e l) - e).
Proof.
  intros H. unfold shr_fexp, shr.
  destruct (fexp 53 1024 (Zdigits2 m + e) - e) as [|p|p] eqn:Hn; simpl fst; simpl snd.
  - split; [lia|]. rewrite shr_record_of_loc_m, Z.sub_diag. simpl. now rewrite Z.div_1_r.
  - split; [lia|]. rewrite iter_shr_1_m by (rewrite shr_record_of_loc_m; exact H).
    rewrite shr_record_of_loc_m. f_equal. f_equal. lia.
  - split; [lia|]. rewrite shr_record_of_loc_m, Z.sub_diag. simpl. now rewrite Z.div_1_r.
Qed.


Lemma round_nearest_even_bounds (m : Z) (l : location) :
  m <= round_nearest_even m l <= m + 1.
Proof. destruct l as [|[| |]]; simpl; try lia. destruct (Z.even m); lia. Qed.

Lemma fexp_53 (x : Z) : fexp 53 1024 x = Z.max (x - 53) (-1074).
Proof. reflexivity. Qed.

Lemma binary_round_aux_finite (sx : bool) (mx ex : Z) (lx : location) :
  0 <= mx -> ex <= 970 -> Zdigits2 mx + ex <= 1023 ->
  float_is_finite (binary_round_aux 53 1024 sx mx ex lx) = true.
Proof.
  intros Hm He Hd. unfold binary_round_aux.
  destruct (shr_fexp_m mx ex lx Hm) as [He1 Hm1].
  destruct (shr_fexp 53 1024 mx ex lx) as [mrs1 e1]. simpl fst in *. simpl snd in *.
  rewrite fexp_53 in He1.
  pose proof (Zdigits2_nonneg mx) as Hd0.
  pose proof (Zdigits2_upper mx Hm) as Hup.
  assert (Hm1b : 0 <= shr_m mrs1 < 2 ^ 53).
  { rewrite Hm1. split; [apply Z.div_pos; lia|].
    apply Z.div_lt_upper_bound; [lia|].
    rewrite <- Z.pow_add_r by lia.
    eapply Z.lt_le_trans; [exact Hup|].
    apply Z.pow_le_mono_r; lia. }
  set (m1 := round_nearest_even (shr_m mrs1) (loc_of_shr_record mrs1)).
  pose proof (round_nearest_even_bounds (shr_m mrs1) (loc_of_shr_record mrs1)) as Hr.
  fold m1 in Hr.
  assert (Hm1' : 0 <= m1) by lia.
  destruct (shr_fexp_m m1 e1 loc_Exact Hm1') as [He2 Hm2].
  destruct (shr_fexp 53 1024 m1 e1 loc_Exact) as [mrs2 e2]. simpl fst in *. simpl snd in *.
  rewrite fexp_53 in He2.
  assert (Hd1 : Zdigits2 m1 <= 54).
  { apply Zdigits2_le; [lia | lia |]. change (2 ^ 54) with (2 * 2 ^ 53). lia. }
  assert (Hm2b : 0 <= shr_m mrs2) by (rewrite Hm2; apply Z.div_pos; lia).
  destruct (shr_m mrs2) as [|p|p]; [reflexivity | | lia].
  destruct (Z.leb_spec e2 (1024 - 53)); [reflexivity | lia].
Qed.

Lemma digits2_iter_xO (m d : positive) :
  digits2_pos (Pos.iter xO m d) = (digits2_pos m + d)%positive.
Proof.
  induction d as [|d IH] using Pos.peano_ind.
  - simpl. lia.
  - rewrite Pos.iter_succ. simpl. rewrite IH. lia.
Qed.

Lemma shl_align_spec (mx : positive) (ex ex' : Z) :
  snd (shl_align mx ex ex') <= ex /\
  Zpos (digits2_pos (fst (shl_align mx ex ex'))) + snd (shl_align mx ex ex') =
  Zpos (digits2_pos mx) + ex.
Proof.
  unfold shl_align. destruct (ex' - ex) as [|d|d] eqn:Hd; simpl; try lia.
  rewrite digits2_iter_xO. lia.
Qed.

Lemma binary_round_finite (sx : bool) (mx : positive) (ex : Z) :
  ex <= 970 -> Zpos (digits2_pos mx) + ex <= 1023 ->
  float_is_finite (binary_round 53 1024 sx mx ex) = true.
Proof.
  intros He Hd. unfold binary_round.
  pose proof (shl_align_spec mx ex (fexp 53 1024 (Zpos (digits2_pos mx) + ex))) as [H1 H2].
  destruct (shl_align mx ex (fexp 53 1024 (Zpos (digits2_pos mx) + ex))) as [mz ez].
  simpl fst in *. simpl snd in *.
  apply binary_round_aux_finite; simpl Zdigits2; lia.
Qed.

Lemma int_truediv_pow2_finite (a k : Z) :
  -970 <= k -> Z.abs a < 2 ^ (1023 + k) ->
  exists x, int_truediv_pow2 a k = Ret x /\ float_is_finite x = true.
Proof.
  intros Hk Ha. unfold int_truediv_pow2.
  assert (Hfin : float_is_finite (binary_normalize 53 1024 a (- k) false) = true).
  { destruct a as [|p|p]; [reflexivity | |]; simpl binary_normalize;
      apply binary_round_finite; try lia;
      (assert (Zdigits2 (Zpos p) <= 1023 + k) as Hd
         by (apply Zdigits2_le; lia); simpl in Hd; lia). }
  destruct (binary_normalize 53 1024 a (- k) false) as [s|s| |s m e]; try discriminate; eauto.
Qed.

(** Sizes below 2^1053 bytes in absolute value can be shown in gigabytes. *)
Lemma fits_bounded (n : Z) : Z.abs n < 2 ^ 1053 -> fits n = true.
Proof.
  intros H. unfold fits, bytes_to_gb.
  destruct (int_truediv_pow2_finite n 30) as (x & -> & _); [lia | exact H | reflexivity].
Qed.

End FloatRange.

(** ** Column widths and the path cell *)

Section Widths.

Lemma fold_max_ge (l : list Z) (a : Z) : a <= fold_left Z.max l a.
Proof.
  revert a. induction l as [|x l IH]; intros a; simpl; [lia|].
  specialize (IH (Z.max a x)). lia.
Qed.

Lemma fold_max_In (l : list Z) (a x : Z) : In x l -> x <= fold_left Z.max l a.
Proof.
  revert a. induction l as [|y l IH]; intros a Hin; [destruct Hin|].
  destruct Hin as [->|Hin]; simpl.
  - pose proof (fold_max_ge l (Z.max a x)). lia.
  - now apply IH.
Qed.

Lemma max_of_In (l : list Z) (x : Z) : In x l -> x <= max_of l.
Proof.
  destruct l as [|y l]; intros Hin; [destruct Hin|].
  destruct Hin as [->|Hin]; simpl.
  - apply fold_max_ge.
  - now apply fold_max_In.
Qed.

Lemma path_width_bounds (locations : list Location) :
  60 <= path_width_of locations <= 80.
Proof. unfold path_width_of. lia. Qed.

Lemma desc_width_bounds (locations : list Location) :
  35 <= desc_width_of locations <= 50.
Proof. unfold desc_width_of. lia. Qed.

Lemma path_width_covers (locations : list Location) (l : Location) :
  In l locations ->
  path_width_of locations = 80 \/ len (loc_path l) <= path_width_of locations - 2.
Proof.
  intros Hin.
  assert (len (loc_path l) <= max_of (map (fun row => len (loc_path row)) locations)) as H.
  { apply max_of_In. apply (in_map (fun row => len (loc_path row))) in Hin. exact Hin. }
  unfold path_width_of. lia.
Qed.

Lemma display_path_short (path_width : Z) (path : string) :
  len path <= path_width - 2 -> display_path path_width path = path.
Proof.
  intros H. unfold display_path.
  destruct (Z.leb_spec (len path) (path_width - 2)); [reflexivity | lia].
Qed.

Lemma display_path_long (path_width : Z) (path : string) :
  5 < path_width -> path_width - 2 < len path ->
  exists head tail,
    path = head +:+ tail /\ len tail = path_width - 5 /\
    display_path path_width path = "..." +:+ tail.
Proof.
  intros Hw H. unfold display_path.
  destruct (Z.leb_spec (len path) (path_width - 2)); [lia|].
  unfold slice_from.
  destruct (Z.ltb_spec (- (path_width - 5)) 0); [|lia].
  set (start := Z.to_nat (Z.max 0 (len path + - (path_width - 5)))).
  exists (take_chars start path), (drop_chars start path).
  split; [symmetry; apply take_drop|]. split; [|reflexivity].
  unfold len in *. rewrite length_drop. subst start. lia.
Qed.

End Widths.

(** ** The stable sort *)

Section Sorting.

Lemma insert_desc_perm (x : Location) (l : list Location) :
  Permutation (insert_desc x l) (x :: l).
Proof.
  induction l as [|y l IH]; simpl; [reflexivity|].
  destruct (loc_size x <? loc_size y); [|reflexivity].
  rewrite IH. apply perm_swap.
Qed.

Lemma sort_desc_perm (l : list Location) : Permutation (sort_desc l) l.
Proof.
  induction l as [|x l IH]; simpl; [reflexivity|].
  rewrite insert_desc_perm. now constructor.
Qed.

Lemma insert_desc_sorted (x : Location) (l : list Location) :
  StronglySorted size_ge l -> StronglySorted size_ge (insert_desc x l).
Proof.
  induction 1 as [|y l Hs IH Hall]; simpl.
  - repeat constructor.
  - destruct (Z.ltb_spec (loc_size x) (loc_size y)).
    + constructor; [exact IH|].
      rewrite insert_desc_perm. constructor; [unfold size_ge; lia | exact Hall].
    + constructor; [now constructor|].
      constructor; [unfold size_ge; lia|].
      eapply List.Forall_impl; [|exact Hall]. unfold size_ge. intros; lia.
Qed.

Lemma sort_desc_sorted (l : list Location) : StronglySorted size_ge (sort_desc l).
Proof.
  induction l as [|x l IH]; simpl; [constructor | now apply insert_desc_sorted].
Qed.

Lemma insert_desc_stable (k : Z) (x : Location) (l : list Location) :
  List.filter (has_size k) (insert_desc x l) = List.filter (has_size k) (x :: l).
Proof.
  induction l as [|y l IH]; [reflexivity|].
  simpl insert_desc. destruct (Z.ltb_spec (loc_size x) (loc_size y)); [|reflexivity].
  change (List.filter (has_size k) (y :: insert_desc x l))
    with (if has_size k y then y :: List.filter (has_size k) (insert_desc x l)
          else List.filter (has_size k) (insert_desc x l)).
  rewrite IH. simpl. unfold has_size.
  destruct (Z.eqb_spec (loc_size x) k), (Z.eqb_spec (loc_size y) k); try reflexivity; lia.
Qed.

Lemma sort_desc_stable (k : Z) (l : list Location) :
  List.filter (has_size k) (sort_desc l) = List.filter (has_size k) l.
Proof.
  induction l as [|x l IH]; [reflexivity|].
  simpl sort_desc. rewrite insert_desc_stable. simpl. now rewrite IH.
Qed.

Lemma sort_desc_nil (l : list Location) : sort_desc l = [] -> l = [].
Proof.
  intros H. pose proof (sort_desc_perm l) as P. rewrite H in P.
  now apply Permutation_nil in P.
Qed.

Lemma total_size_perm (l l' : list Location) :
  Permutation l l' -> total_size_of l = total_size_of l'.
Proof.
  induction 1; simpl; try lia.
Qed.

End Sorting.

(** Records whose sizes are unsigned 64-bit numbers, in a list of less than
    2^64 elements: every size and the total can be shown in gigabytes. *)
Lemma total_size_bound (locations : list Location) :
  Forall (fun l => 0 <= loc_size l < 2 ^ 64) locations ->
  0 <= total_size_of locations <= Z.of_nat (length locations) * 2 ^ 64.
Proof.
  induction 1 as [|l rest Hl _ IH]; simpl total_size_of; simpl length; [lia|].
  rewrite Nat2Z.inj_succ. lia.
Qed.

Lemma u64_records_fit (locations : list Location) :
  Forall (fun l => 0 <= loc_size l < 2 ^ 64) locations ->
  Z.of_nat (length locations) < 2 ^ 64 ->
  forallb (fun l => fits (loc_size l)) locations = true /\
  fits (total_size_of locations) = true.
Proof.
  intros Hall Hlen. split.
  - apply forallb_forall. intros l Hin.
    rewrite List.Forall_forall in Hall. specialize (Hall l Hin).
    apply fits_bounded. apply Z.abs_lt. split.
    + apply Z.lt_le_trans with 0; [reflexivity | lia].
    + apply Z.lt_trans with (2 ^ 64); [lia | reflexivity].
  - pose proof (total_size_bound locations Hall) as Hb.
    apply fits_bounded. apply Z.abs_lt. split.
    + apply Z.lt_le_trans with 0; [reflexivity | lia].
    + apply Z.le_lt_trans with (Z.of_nat (length locations) * 2 ^ 64); [lia|].
      apply Z.lt_trans with (2 ^ 64 * 2 ^ 64); [|reflexivity].
      apply Z.mul_lt_mono_pos_r; [reflexivity | exact Hlen].
Qed.

(** ** Running the report *)

Section Report.

Lemma world_eta (w : World) : mkWorld (heap w) (stdout w) (calls w) = w.
Proof. now destruct w. Qed.

Lemma fits_Ret (n : Z) : fits n = true -> exists g, bytes_to_gb n = Ret g.
Proof.
  unfold fits. destruct (bytes_to_gb n) as [g|e]; [eauto | discriminate].
Qed.

Lemma forallb_perm {A} (f : A -> bool) (l l' : list A) :
  Permutation l l' -> forallb f l = true -> forallb f l' = true.
Proof.
  intros P H. rewrite forallb_forall in *. intros x Hx.
  apply H. eapply Permutation_in; [symmetry; exact P | exact Hx].
Qed.

Lemma rows_loop_spec (pw dw : Z) (locations : list Location) :
  forall (total : Z) (w : World),
    forallb (fun l => fits (loc_size l)) locations = true ->
    exists rows,
      Forall2 (renders pw dw) locations rows /\
      rows_loop pw dw locations total w =
        (Ret (total + total_size_of locations),
         mkWorld (heap w) (stdout w ++ rows) (calls w)).
Proof.
  induction locations as [|l rest IH]; intros total w Hfit.
  - exists []. split; [constructor|]. simpl. unfold ret.
    rewrite app_nil_r, world_eta. f_equal. f_equal. lia.
  - simpl in Hfit. apply andb_prop in Hfit as [Hl Hrest].
    destruct (fits_Ret _ Hl) as [g Hg].
    set (w1 := mkWorld (heap w) (stdout w ++ [row_line pw dw l g +:+ newline]) (calls w)).
    destruct (IH (total + loc_size l) w1 Hrest) as (rows & Hrows & Hrun).
    exists ((row_line pw dw l g +:+ newline) :: rows). split.
    + constructor; [exists g; now split | exact Hrows].
    + simpl. unfold bind, lift. rewrite Hg. unfold print, write.
      fold w1. rewrite Hrun. subst w1. simpl.
      rewrite <- app_assoc. simpl. f_equal. f_equal. lia.
Qed.

Lemma rows_loop_heap (pw dw : Z) (locations : list Location) :
  forall (total : Z) (w : World),
    heap (snd (rows_loop pw dw locations total w)) = heap w.
Proof.
  induction locations as [|l rest IH]; intros total w; [reflexivity|].
  simpl. unfold bind, lift.
  destruct (bytes_to_gb (loc_size l)) as [g|e]; [|reflexivity].
  unfold print, write. rewrite IH. reflexivity.
Qed.

Lemma bind_Ret {A B} (c : M A) (k : A -> M B) (w w' : World) (a : A) :
  c w = (Ret a, w') -> bind c k w = k a w'.
Proof. intros H. unfold bind. now rewrite H. Qed.

Lemma bind_Raise {A B} (c : M A) (k : A -> M B) (w w' : World) (e : exn) :
  c w = (Raise e, w') -> bind c k w = (Raise e, w').
Proof. intros H. unfold bind. now rewrite H. Qed.

Lemma load_Some (r : ref) (w : World) (l : list Location) :
  heap w !! r = Some l -> load r w = (Ret l, w).
Proof. intros H. unfold load. now rewrite H. Qed.

Lemma sort_in_place_Some (r : ref) (w : World) (l : list Location) :
  heap w !! r = Some l ->
  sort_in_place r w =
    (Ret tt, mkWorld (<[r := sort_desc l]> (heap w)) (stdout w) (calls w)).
Proof.
  intros H. unfold sort_in_place.
  rewrite (bind_Ret _ _ _ _ _ (load_Some r w l H)). reflexivity.
Qed.

Lemma print_results_table_spec (r : ref) (w : World) (locations : list Location) :
  heap w !! r = Some locations ->
  locations <> [] ->
  forallb (fun l => fits (loc_size l)) locations = true ->
  fits (total_size_of locations) = true ->
  let sorted := sort_desc locations in
  exists rows total_gb,
    Forall2 (renders (path_width_of sorted) (desc_width_of sorted)) sorted rows /\
    bytes_to_gb (total_size_of locations) = Ret total_gb /\
    print_results_table r w =
      (Ret tt,
       mkWorld (<[r := sorted]> (heap w))
               (stdout w ++ table_head sorted ++ rows ++ [newline; total_line total_gb; newline])
               (calls w)).
Proof.
  intros Hr Hne Hfit Htot sorted.
  assert (Hfit' : forallb (fun l => fits (loc_size l)) sorted = true).
  { eapply forallb_perm; [symmetry; apply sort_desc_perm | exact Hfit]. }
  destruct (fits_Ret _ Htot) as [tg Htg].
  set (w0 := mkWorld (<[r := sorted]> (heap w)) (stdout w) (calls w)).
  set (w1 := mkWorld (<[r := sorted]> (heap w)) (stdout w ++ table_head sorted) (calls w)).
  destruct (rows_loop_spec (path_width_of sorted) (desc_width_of sorted) sorted 0 w1 Hfit')
    as (rows & Hrows & Hrun).
  exists rows, tg. split; [exact Hrows|]. split; [exact Htg|].
  unfold print_results_table.
  rewrite (bind_Ret _ _ _ _ _ (load_Some r w locations Hr)).
  destruct locations as [|l0 rest]; [congruence|].
  rewrite (bind_Ret _ _ _ _ _ (sort_in_place_Some r w _ Hr)). fold sorted. fold w0.
  assert (Hr0 : heap w0 !! r = Some sorted) by (subst w0; simpl; apply lookup_insert_eq).
  rewrite (bind_Ret _ _ _ _ _ (load_Some r w0 sorted Hr0)).
  unfold print_colored, print, write, bind at 1 2.
  replace (mkWorld (heap {| heap := heap w0; stdout := stdout w0 ++ _; calls := calls w0 |}) _ _)
    with w1.
  2:{ subst w0 w1. unfold table_head. simpl. rewrite <- app_assoc. reflexivity. }
  rewrite (bind_Ret _ _ _ _ _ Hrun).
  rewrite (total_size_perm sorted (l0 :: rest)) by apply sort_desc_perm.
  unfold bind, lift. rewrite Z.add_0_l, Htg. subst w1. simpl.
  unfold total_line, colored_line. rewrite <- !app_assoc. reflexivity.
Qed.

(** Rows can be told from everything else the script prints. *)
Lemma is_row_colored (text color : string) : is_row (colored_line text color) = false.
Proof.
  unfold is_row, endswith, colored_line.
  rewrite !rev_string_append. reflexivity.
Qed.

Lemma is_row_newline : is_row newline = false.
Proof. reflexivity. Qed.

Lemma is_row_row_line (pw dw : Z) (l : Location) (g : float) :
  is_row (row_line pw dw l g +:+ newline) = true.
Proof.
  unfold row_line. rewrite !app_assoc_string.
  unfold is_row, perm_text.
  destruct (loc_sudo l && (loc_size l =? 0)).
  - apply orb_true_iff. left. do 6 apply endswith_app_r. reflexivity.
  - apply orb_true_iff. right. do 6 apply endswith_app_r. reflexivity.
Qed.

Lemma renders_is_row (pw dw : Z) (l : Location) (line : string) :
  renders pw dw l line -> is_row line = true.
Proof. intros (g & _ & ->). apply is_row_row_line. Qed.

Lemma table_rows_app (a b : list string) : table_rows (a ++ b) = table_rows a ++ table_rows b.
Proof. apply List.filter_app. Qed.

Lemma table_rows_rendered (pw dw : Z) (locations : list Location) (rows : list string) :
  Forall2 (renders pw dw) locations rows -> table_rows rows = rows.
Proof.
  induction 1 as [|l line locations rows Hl _ IH]; [reflexivity|].
  unfold table_rows in *. simpl. rewrite (renders_is_row _ _ _ _ Hl). now rewrite IH.
Qed.

(** What a call of [print_results_table] on a non-empty list writes, read
    back: the rows are the rendering of the sorted list, the total comes
    last but one. *)
Lemma print_results_table_written (r : ref) (w : World) (locations : list Location) :
  heap w !! r = Some locations ->
  locations <> [] ->
  forallb (fun l => fits (loc_size l)) locations = true ->
  fits (total_size_of locations) = true ->
  let sorted := sort_desc locations in
  exists out total_gb,
    print_results_table r w =
      (Ret tt, mkWorld (<[r := sorted]> (heap w)) (stdout w ++ out) (calls w)) /\
    Forall2 (renders (path_width_of sorted) (desc_width_of sorted)) sorted (table_rows out) /\
    bytes_to_gb (total_size_of locations) = Ret total_gb /\
    exists before, out = before ++ [total_line total_gb; newline].
Proof.
  intros Hr Hne Hfit Htot sorted.
  destruct (print_results_table_spec r w locations Hr Hne Hfit Htot)
    as (rows & tg & Hrows & Htg & Hrun).
  fold sorted in Hrows, Hrun.
  exists (table_head sorted ++ rows ++ [newline; total_line tg; newline]), tg.
  split; [exact Hrun|]. split; [|split; [exact Htg|]].
  - rewrite !table_rows_app.
    rewrite (table_rows_rendered _ _ _ _ Hrows).
    unfold table_head, table_rows, total_line. simpl.
    rewrite !is_row_colored. simpl. now rewrite app_nil_r.
  - exists (table_head sorted ++ rows ++ [newline]).
    rewrite <- !app_assoc. reflexivity.
Qed.

Lemma print_results_table_empty (r : ref) (w : World) :
  heap w !! r = Some [] ->
  print_results_table r w =
    (Ret tt,
     mkWorld (heap w)
             (stdout w ++ [colored_line "No large directories found." Colors.YELLOW])
             (calls w)).
Proof.
  intros Hr. unfold print_results_table.
  rewrite (bind_Ret _ _ _ _ _ (load_Some r w [] Hr)). reflexivity.
Qed.

(** Whatever happens to the rows, the list object has been sorted. *)
Lemma print_results_table_heap (r : ref) (w : World) (locations : list Location) :
  heap w !! r = Some locations ->
  heap (snd (print_results_table r w)) = <[r := sort_desc locations]> (heap w).
Proof.
  intros Hr. unfold print_results_table.
  rewrite (bind_Ret _ _ _ _ _ (load_Some r w locations Hr)).
  destruct locations as [|l0 rest].
  - simpl. symmetry. now apply insert_id.
  - rewrite (bind_Ret _ _ _ _ _ (sort_in_place_Some r w _ Hr)).
    set (sorted := sort_desc (l0 :: rest)).
    set (w0 := mkWorld (<[r := sorted]> (heap w)) (stdout w) (calls w)).
    assert (Hr0 : heap w0 !! r = Some sorted) by (subst w0; simpl; apply lookup_insert_eq).
    rewrite (bind_Ret _ _ _ _ _ (load_Some r w0 sorted Hr0)).
    unfold print_colored, print, write, bind at 1 2.
    match goal with
    | |- heap (snd (bind (rows_loop ?pw ?dw ?ls ?t) ?k ?w2)) = _ =>
        pose proof (rows_loop_heap pw dw ls t w2) as Hh;
        unfold bind;
        destruct (rows_loop pw dw ls t w2) as [[total|e] w3]
    end; simpl in Hh.
    + unfold lift. destruct (bytes_to_gb total); simpl; exact Hh.
    + simpl. exact Hh.
Qed.

End Report.

(** ** The claims about the report *)

Section ReportClaims.

Lemma len_ljust_display (path_width : Z) (path : string) :
  5 < path_width ->
  len (ljust (display_path path_width path) path_width) = path_width.
Proof.
  intros Hw. rewrite len_ljust.
  destruct (Z.le_gt_cases (len path) (path_width - 2)) as [H|H].
  - rewrite display_path_short by exact H. lia.
  - destruct (display_path_long path_width path Hw) as (hd & tl & _ & Htl & ->); [lia|].
    rewrite len_app, Htl. change (len "...") with 3. lia.
Qed.

(** C2, as the code has it: a path of a record of the table that is longer
    than the path column width minus two is shown as ["..."] followed by its
    last (width - 5) characters, which makes width - 2 characters, padded
    with two spaces to the width of the column; this only happens in a table
    whose path column has the maximal width 80.  A path of at most
    width - 2 characters is shown as it is.  The padded cell always has the
    width of the column. *)
Theorem path_cell_truncation (locations : list Location) (l : Location) :
  In l locations ->
  let path_width := path_width_of locations in
  let cell := display_path path_width (loc_path l) in
  (len (loc_path l) <= path_width - 2 -> cell = loc_path l) /\
  (path_width - 2 < len (loc_path l) ->
     path_width = 80 /\
     exists head tail,
       loc_path l = head +:+ tail /\ len tail = path_width - 5 /\
       cell = "..." +:+ tail /\ len cell = path_width - 2 /\
       ljust cell path_width = cell +:+ "  ") /\
  len (ljust cell path_width) = path_width.
Proof.
  intros Hin path_width cell.
  pose proof (path_width_bounds locations) as Hb. fold path_width in Hb.
  split; [|split].
  - intros H. now apply display_path_short.
  - intros H. split.
    + destruct (path_width_covers locations l Hin) as [H80|Hs]; [exact H80|].
      fold path_width in Hs. lia.
    + destruct (display_path_long path_width (loc_path l)) as (hd & tl & Hp & Htl & Hc);
        [lia | lia |].
      exists hd, tl. fold cell in Hc.
      assert (Hlen : len cell = path_width - 2).
      { rewrite Hc, len_app, Htl. change (len "...") with 3. lia. }
      repeat split; try assumption.
      unfold ljust. rewrite Hlen.
      replace (path_width - (path_width - 2)) with 2 by lia. reflexivity.
  - apply len_ljust_display. lia.
Qed.

Lemma path_cell_truncation_witness :
  In record_longer locations_longer /\
  path_width_of locations_longer - 2 < len (loc_path record_longer) /\
  len (ljust (display_path (path_width_of locations_longer) (loc_path record_longer))
             (path_width_of locations_longer)) = path_width_of locations_longer.
Proof.
  assert (Hin : In record_longer locations_longer) by (left; reflexivity).
  split; [exact Hin|]. split; [reflexivity|].
  exact (proj2 (proj2 (path_cell_truncation locations_longer record_longer Hin))).
Defined.

(** C2 as worded fails: in a table whose only path has 79 characters the
    column is 80 wide, the path is not longer than the column, and it is
    cut all the same. *)
Lemma truncation_as_stated_fails : ~ truncation_as_stated locations_long path79.
Proof.
  unfold truncation_as_stated. intros [_ H].
  assert (Hle : len path79 <= path_width_of locations_long) by (vm_compute; discriminate).
  specialize (H Hle). vm_compute in H. discriminate H.
Qed.

(** The report on a list, read back: it returns normally, the rows it
    wrote are the rendering of the sorted list. *)
Lemma report_rows (r : ref) (w : World) (locations : list Location) :
  heap w !! r = Some locations ->
  forallb (fun l => fits (loc_size l)) locations = true ->
  fits (total_size_of locations) = true ->
  let sorted := sort_desc locations in
  exists out,
    print_results_table r w =
      (Ret tt, mkWorld (<[r := sorted]> (heap w)) (stdout w ++ out) (calls w)) /\
    Forall2 (renders (path_width_of sorted) (desc_width_of sorted)) sorted (table_rows out).
Proof.
  intros Hr Hfit Htot sorted. destruct locations as [|l0 rest].
  - exists [colored_line "No large directories found." Colors.YELLOW]. split.
    + rewrite (print_results_table_empty r w Hr). subst sorted. simpl.
      now rewrite (insert_id _ _ _ Hr).
    + unfold table_rows. cbn [List.filter]. rewrite is_row_colored. constructor.
  - destruct (print_results_table_written r w (l0 :: rest) Hr) as (out & tg & Hrun & Hrows & _);
      [congruence | exact Hfit | exact Htot |].
    exists out. split; [exact Hrun | exact Hrows].
Qed.

(** C3: for every list of records the rows of the report are the records
    sorted by size, largest first (a row that comes before another has a
    size at least as large), and records of equal size come in the order
    they had in the list. *)
Theorem rows_sorted_by_size_stable (r : ref) (w : World) (locations : list Location) :
  heap w !! r = Some locations ->
  forallb (fun l => fits (loc_size l)) locations = true ->
  fits (total_size_of locations) = true ->
  exists out rendered,
    fst (print_results_table r w) = Ret tt /\
    stdout (snd (print_results_table r w)) = stdout w ++ out /\
    Forall2 (renders (path_width_of rendered) (desc_width_of rendered))
            rendered (table_rows out) /\
    StronglySorted size_ge rendered /\
    Permutation rendered locations /\
    (forall k, List.filter (has_size k) rendered = List.filter (has_size k) locations).
Proof.
  intros Hr Hfit Htot.
  destruct (report_rows r w locations Hr Hfit Htot) as (out & Hrun & Hrows).
  exists out, (sort_desc locations). rewrite Hrun. simpl.
  repeat split.
  - exact Hrows.
  - apply sort_desc_sorted.
  - apply sort_desc_perm.
  - intros k. apply sort_desc_stable.
Qed.

Lemma rows_sorted_by_size_stable_witness :
  world_ties.(heap) !! 7%nat = Some locations_ties /\
  exists out rendered,
    fst (print_results_table 7%nat world_ties) = Ret tt /\
    stdout (snd (print_results_table 7%nat world_ties)) = stdout world_ties ++ out /\
    Forall2 (renders (path_width_of rendered) (desc_width_of rendered))
            rendered (table_rows out) /\
    StronglySorted size_ge rendered /\
    Permutation rendered locations_ties /\
    (forall k, List.filter (has_size k) rendered = List.filter (has_size k) locations_ties).
Proof.
  split; [reflexivity|].
  apply (rows_sorted_by_size_stable 7%nat world_ties locations_ties); reflexivity.
Defined.

(** The text of the permission column of a record. *)
Lemma perm_text_cases (requires_sudo : bool) (size_bytes : Z) :
  (requires_sudo = true /\ size_bytes = 0 /\
   perm_text requires_sudo size_bytes = "sudo needed") \/
  (~ (requires_sudo = true /\ size_bytes = 0) /\
   perm_text requires_sudo size_bytes = "user access").
Proof.
  unfold perm_text. destruct requires_sudo; simpl.
  - destruct (Z.eqb_spec size_bytes 0); [left | right]; repeat split; auto.
    intros [_ ?]; contradiction.
  - right. split; [intros [? _]; discriminate | reflexivity].
Qed.

(** C8: every row of the report is the row of one record of the list, each
    record having its row: the row shows the path, the description and the
    size of that record and ends with the permission flag of the same
    record, padded to the permission column.  The flag is ["sudo needed"]
    exactly when the record requires elevated access and has size 0, and
    ["user access"] in every other case. *)
Theorem permission_flag_of_rows (r : ref) (w : World) (locations : list Location) :
  heap w !! r = Some locations ->
  forallb (fun l => fits (loc_size l)) locations = true ->
  fits (total_size_of locations) = true ->
  exists out rendered,
    fst (print_results_table r w) = Ret tt /\
    stdout (snd (print_results_table r w)) = stdout w ++ out /\
    Permutation rendered locations /\
    Forall2 (fun l line =>
               renders (path_width_of rendered) (desc_width_of rendered) l line /\
               exists size_gb flag,
                 bytes_to_gb (loc_size l) = Ret size_gb /\
                 line =
                   (ljust (display_path (path_width_of rendered) (loc_path l))
                          (path_width_of rendered) +:+ " " +:+
                    ljust (loc_desc l) (desc_width_of rendered) +:+ " " +:+
                    rjust (format_2f size_gb) 10 +:+ " GB ") +:+
                   ljust flag perm_width +:+ newline /\
                 ((loc_sudo l = true /\ loc_size l = 0 /\ flag = "sudo needed") \/
                  (~ (loc_sudo l = true /\ loc_size l = 0) /\ flag = "user access")))
            rendered (table_rows out).
Proof.
  intros Hr Hfit Htot.
  destruct (report_rows r w locations Hr Hfit Htot) as (out & Hrun & Hrows).
  exists out, (sort_desc locations). rewrite Hrun. simpl.
  split; [reflexivity|]. split; [reflexivity|]. split; [apply sort_desc_perm|].
  eapply List.Forall2_impl; [|exact Hrows].
  intros l line Hline. split; [exact Hline|].
  destruct Hline as (g & Hg & ->).
  exists g, (perm_text (loc_sudo l) (loc_size l)).
  split; [exact Hg|]. split.
  - unfold row_line. rewrite !app_assoc_string. reflexivity.
  - apply perm_text_cases.
Qed.

Lemma permission_flag_of_rows_witness :
  world_ties.(heap) !! 7%nat = Some locations_ties /\
  exists out rendered,
    fst (print_results_table 7%nat world_ties) = Ret tt /\
    stdout (snd (print_results_table 7%nat world_ties)) = stdout world_ties ++ out /\
    Permutation rendered locations_ties /\
    Forall2 (fun l line =>
               renders (path_width_of rendered) (desc_width_of rendered) l line /\
               exists size_gb flag,
                 bytes_to_gb (loc_size l) = Ret size_gb /\
                 line =
                   (ljust (display_path (path_width_of rendered) (loc_path l))
                          (path_width_of rendered) +:+ " " +:+
                    ljust (loc_desc l) (desc_width_of rendered) +:+ " " +:+
                    rjust (format_2f size_gb) 10 +:+ " GB ") +:+
                   ljust flag perm_width +:+ newline /\
                 ((loc_sudo l = true /\ loc_size l = 0 /\ flag = "sudo needed") \/
                  (~ (loc_sudo l = true /\ loc_size l = 0) /\ flag = "user access")))
            rendered (table_rows out).
Proof.
  split; [reflexivity|].
  apply (permission_flag_of_rows 7%nat world_ties locations_ties); reflexivity.
Defined.

(** C9: for every list of records that gets a table, the line written
    after the rows shows the sum of the sizes of all records of the list,
    divided by 1024^3 and formatted with two decimals; nothing but an empty
    line follows it.  Records of 2 GB and 5 GB in that order give the rows B
    then A and the total ["7.00 GB"]. *)
Theorem total_is_sum_in_gigabytes :
  (forall (r : ref) (w : World) (locations : list Location),
     heap w !! r = Some locations ->
     locations <> [] ->
     forallb (fun l => fits (loc_size l)) locations = true ->
     fits (total_size_of locations) = true ->
     exists before total_gb,
       fst (print_results_table r w) = Ret tt /\
       stdout (snd (print_results_table r w)) =
         stdout w ++ before ++
         [colored_line ("Total Scanned: " +:+ format_2f total_gb +:+ " GB")
                       (Colors.BOLD +:+ Colors.GREEN);
          newline] /\
       bytes_to_gb (total_size_of locations) = Ret total_gb) /\
  (total_size_of locations_ab = 7 * 1024 ^ 3 /\
   exists head,
     stdout (snd (print_results_table 1%nat world_ab)) =
       head ++
       [ ljust "/tmp/b" 60 +:+ " " +:+ ljust "B" 35 +:+ " " +:+
           "      5.00 GB user access " +:+ newline;
         ljust "/tmp/a" 60 +:+ " " +:+ ljust "A" 35 +:+ " " +:+
           "      2.00 GB user access " +:+ newline;
         newline;
         colored_line "Total Scanned: 7.00 GB" (Colors.BOLD +:+ Colors.GREEN);
         newline ] /\
     table_rows head = []).
Proof.
  split.
  - intros r w locations Hr Hne Hfit Htot.
    destruct (print_results_table_written r w locations Hr Hne Hfit Htot)
      as (out & tg & Hrun & _ & Htg & before & ->).
    exists before, tg. rewrite Hrun. simpl. split; [reflexivity|]. split; [|exact Htg].
    reflexivity.
  - split; [reflexivity|].
    exists (table_head (sort_desc locations_ab)). split; vm_compute; reflexivity.
Qed.

Lemma total_is_sum_in_gigabytes_witness :
  world_ab.(heap) !! 1%nat = Some locations_ab /\
  exists before total_gb,
    fst (print_results_table 1%nat world_ab) = Ret tt /\
    stdout (snd (print_results_table 1%nat world_ab)) =
      stdout world_ab ++ before ++
      [colored_line ("Total Scanned: " +:+ format_2f total_gb +:+ " GB")
                    (Colors.BOLD +:+ Colors.GREEN);
       newline] /\
    bytes_to_gb (total_size_of locations_ab) = Ret total_gb.
Proof.
  split; [reflexivity|].
  apply (proj1 total_is_sum_in_gigabytes 1%nat world_ab locations_ab);
    [reflexivity | discriminate | reflexivity | reflexivity].
Defined.

Lemma sort_desc_fixed (l : list Location) : sort_desc l = l -> StronglySorted size_ge l.
Proof. intros H. rewrite <- H. apply sort_desc_sorted. Qed.

(** C10: rendering the report changes its argument.  The list object that
    the caller passed holds the records sorted by size, largest first,
    when [print_results_table] is done; the caller reads the original order
    back only if the list was in that order already.  No other list object
    is touched. *)
Theorem report_sorts_list_in_place (r : ref) (w : World) (locations : list Location) :
  heap w !! r = Some locations ->
  heap (snd (print_results_table r w)) !! r = Some (sort_desc locations) /\
  StronglySorted size_ge (sort_desc locations) /\
  Permutation (sort_desc locations) locations /\
  (heap (snd (print_results_table r w)) !! r = Some locations ->
   StronglySorted size_ge locations) /\
  (forall r' : ref, r' <> r ->
     heap (snd (print_results_table r w)) !! r' = heap w !! r').
Proof.
  intros Hr. rewrite (print_results_table_heap r w locations Hr).
  rewrite lookup_insert_eq. repeat split.
  - apply sort_desc_sorted.
  - apply sort_desc_perm.
  - intros H. apply sort_desc_fixed. congruence.
  - intros r' Hne. now rewrite lookup_insert_ne.
Qed.

Lemma report_sorts_list_in_place_witness :
  world_ab.(heap) !! 1%nat = Some locations_ab /\
  heap (snd (print_results_table 1%nat world_ab)) !! 1%nat = Some (sort_desc locations_ab) /\
  sort_desc locations_ab <> locations_ab.
Proof.
  split; [reflexivity|]. split.
  - exact (proj1 (report_sorts_list_in_place 1%nat world_ab locations_ab eq_refl)).
  - discriminate.
Defined.

End ReportClaims.

(** ** The size probe *)

Section Probe.

Variable env : Env.

Lemma get_directory_size_absent (path : string) (w : World) :
  path_exists env path = false ->
  get_directory_size env path w = (Ret (0, false), w).
Proof.
  intros H. unfold get_directory_size, try_except, bind, exists_. now rewrite H.
Qed.

Lemma get_directory_size_raised (path : string) (w : World) (e : exn) :
  path_exists env path = true ->
  run env ["du"; "-sk"; path] = Failed e ->
  get_directory_size env path w =
    (if existsb (subclass e) probe_errors then Ret (0, false) else Raise e,
     spawned w ["du"; "-sk"; path]).
Proof.
  intros Hex Hrun.
  unfold get_directory_size, try_except, bind, exists_, subprocess_run.
  rewrite Hex, Hrun. cbn [negb]. cbv beta iota.
  destruct (existsb (subclass e) probe_errors); reflexivity.
Qed.

Lemma get_directory_size_status (path : string) (w : World) (rc : Z) (out : string) :
  path_exists env path = true ->
  run env ["du"; "-sk"; path] = Completed rc out ->
  rc <> 0 ->
  get_directory_size env path w = (Ret (0, false), spawned w ["du"; "-sk"; path]).
Proof.
  intros Hex Hrun Hrc.
  unfold get_directory_size, try_except, bind, exists_, subprocess_run.
  rewrite Hex, Hrun. cbn [negb]. cbv beta iota.
  destruct (Z.eqb_spec rc 0); [contradiction | reflexivity].
Qed.

Lemma get_directory_size_parsed (path : string) (w : World) (out : string) :
  path_exists env path = true ->
  run env ["du"; "-sk"; path] = Completed 0 out ->
  get_directory_size env path w =
    (match split out with
     | [] => Raise IndexError
     | field :: _ =>
         match int field with
         | Ret size_kb => Ret (size_kb * 1024, true)
         | Raise _ => Ret (0, false)
         end
     end,
     spawned w ["du"; "-sk"; path]).
Proof.
  intros Hex Hrun.
  unfold get_directory_size, try_except, bind, exists_, subprocess_run.
  rewrite Hex, Hrun. cbn [negb Z.eqb]. cbv beta iota.
  unfold lift, item0. destruct (split out) as [|field rest]; [reflexivity|].
  unfold int. destruct (match int_strip field with
                        | String "-" d => option_map Z.opp (int_unsigned d)
                        | String "+" d => int_unsigned d
                        | _ => int_unsigned (int_strip field)
                        end); reflexivity.
Qed.

(** The outcome of a probe is the same in every world. *)
Lemma get_directory_size_probe (path : string) (w : World) :
  fst (get_directory_size env path w) = probe env path.
Proof.
  unfold probe. destruct (path_exists env path) eqn:Hex.
  - destruct (run env ["du"; "-sk"; path]) as [rc out|e] eqn:Hrun.
    + destruct (Z.eq_dec rc 0) as [->|Hrc].
      * now rewrite !(get_directory_size_parsed path _ out Hex Hrun).
      * now rewrite !(get_directory_size_status path _ rc out Hex Hrun Hrc).
    + now rewrite !(get_directory_size_raised path _ e Hex Hrun).
  - now rewrite !get_directory_size_absent.
Qed.

(** A probe writes nothing and touches no list; it spawns at most [du]. *)
Lemma get_directory_size_world (path : string) (w : World) :
  snd (get_directory_size env path w) = w \/
  snd (get_directory_size env path w) = spawned w ["du"; "-sk"; path].
Proof.
  destruct (path_exists env path) eqn:Hex.
  - right. destruct (run env ["du"; "-sk"; path]) as [rc out|e] eqn:Hrun.
    + destruct (Z.eq_dec rc 0) as [->|Hrc].
      * now rewrite (get_directory_size_parsed path _ out Hex Hrun).
      * now rewrite (get_directory_size_status path _ rc out Hex Hrun Hrc).
    + now rewrite (get_directory_size_raised path _ e Hex Hrun).
  - left. now rewrite get_directory_size_absent.
Qed.

(** A probe that succeeds has seen the path. *)
Lemma probe_success_exists (path : string) (size_bytes : Z) :
  probe env path = Ret (size_bytes, true) -> path_exists env path = true.
Proof.
  unfold probe. destruct (path_exists env path) eqn:Hex; [reflexivity|].
  rewrite get_directory_size_absent by exact Hex. discriminate.
Qed.

End Probe.

(** ** The catalog scan *)

Section Scan.

Variable env : Env.

Lemma get_directory_size_frame (path : string) (w : World) :
  exists cs,
    get_directory_size env path w =
      (probe env path, mkWorld (heap w) (stdout w) (calls w ++ cs)).
Proof.
  pose proof (get_directory_size_probe env path w) as Ho.
  destruct (get_directory_size_world env path w) as [Hw|Hw].
  - exists []. rewrite app_nil_r, world_eta.
    destruct (get_directory_size env path w); simpl in *; congruence.
  - exists [["du"; "-sk"; path]].
    destruct (get_directory_size env path w); simpl in *; unfold spawned in Hw; congruence.
Qed.

Lemma is_row_progress (s : string) : is_row (s +:+ carriage_return) = false.
Proof.
  unfold is_row, endswith. rewrite !rev_string_append. reflexivity.
Qed.

Lemma scan_entry_spec (locations : list Location) (entry : string * string * bool)
    (w : World) :
  probe_safe env entry = true ->
  exists out cs,
    scan_entry env locations entry w =
      (Ret (if listed env entry then locations ++ [record_of env entry] else locations),
       mkWorld (heap w) (stdout w ++ out) (calls w ++ cs)) /\
    table_rows out = [].
Proof.
  destruct entry as [[path_str description] requires_sudo].
  unfold probe_safe, listed, record_of, entry_path. simpl fst.
  intros Hsafe. unfold scan_entry, print_end.
  set (progress := ("Scanning: " +:+ description +:+ "...") +:+ carriage_return).
  unfold bind at 1, write.
  set (w1 := mkWorld (heap w) (stdout w ++ [progress]) (calls w)).
  destruct (get_directory_size_frame path_str w1) as (cs & Hprobe).
  unfold bind at 1. rewrite Hprobe.
  assert (Hprogress : table_rows [progress] = []).
  { unfold table_rows. cbn [List.filter]. subst progress. now rewrite is_row_progress. }
  destruct (probe env path_str) as [[size_bytes success]|e]; [|discriminate].
  destruct success.
  - cbn [andb]. destruct (Z.ltb_spec 0 size_bytes) as [Hpos|Hle].
    + destruct (Z.leb_spec size_bytes 0) as [?|_]; [lia|].
      cbn [orb] in Hsafe. destruct (fits_Ret _ Hsafe) as [g Hg].
      unfold bind, lift. rewrite Hg. unfold print_colored, print, write, ret. simpl.
      exists [progress; colored_line ("Found: " +:+ description +:+ " - " +:+
                                        format_2f g +:+ " GB") Colors.GREEN], cs.
      split.
      * rewrite <- app_assoc. reflexivity.
      * unfold table_rows in *. cbn [List.filter] in *.
        rewrite is_row_colored. destruct (is_row progress); [discriminate | reflexivity].
    + unfold bind, ret. simpl.
      exists [progress], cs. split; [reflexivity | exact Hprogress].
  - cbn [andb negb]. unfold bind, exists_.
    destruct (path_exists env path_str).
    + unfold print_colored, print, write, ret. simpl.
      exists [progress; colored_line ("Found: " +:+ description +:+
                 " - [Permission Denied - may require sudo]") Colors.YELLOW], cs.
      split.
      * rewrite <- app_assoc. reflexivity.
      * unfold table_rows in *. cbn [List.filter] in *.
        rewrite is_row_colored. destruct (is_row progress); [discriminate | reflexivity].
    + unfold ret. simpl. exists [progress], cs. split; [reflexivity | exact Hprogress].
Qed.

Lemma scan_loop_spec (catalog : list (string * string * bool)) :
  forall (locations : list Location) (w : World),
    forallb (probe_safe env) catalog = true ->
    exists out cs,
      scan_loop env catalog locations w =
        (Ret (locations ++ listed_records env catalog),
         mkWorld (heap w) (stdout w ++ out) (calls w ++ cs)) /\
      table_rows out = [].
Proof.
  unfold listed_records.
  induction catalog as [|entry rest IH]; intros locations w Hsafe.
  - exists [], []. simpl. unfold ret. rewrite !app_nil_r, world_eta. now split.
  - simpl in Hsafe. apply andb_prop in Hsafe as [He Hrest].
    destruct (scan_entry_spec locations entry w He) as (out1 & cs1 & Hrun1 & Hrows1).
    simpl scan_loop. rewrite (bind_Ret _ _ _ _ _ Hrun1).
    match goal with
    | |- context [scan_loop env rest ?ls ?w1] =>
        destruct (IH ls w1 Hrest) as (out2 & cs2 & Hrun2 & Hrows2)
    end.
    exists (out1 ++ out2), (cs1 ++ cs2). split.
    + rewrite Hrun2. simpl. rewrite <- !app_assoc.
      destruct (listed env entry); simpl; rewrite <- ?app_assoc; reflexivity.
    + rewrite table_rows_app, Hrows1, Hrows2. reflexivity.
Qed.

Lemma scan_locations_spec (catalog : list (string * string * bool)) (w : World) :
  forallb (probe_safe env) catalog = true ->
  exists out cs,
    scan_locations env catalog w =
      (Ret (listed_records env catalog),
       mkWorld (heap w) (stdout w ++ out) (calls w ++ cs)) /\
    table_rows out = [].
Proof.
  intros Hsafe. unfold scan_locations, print_colored, print, write.
  unfold bind at 1 2.
  match goal with
  | |- context [bind (scan_loop env catalog [] ) _ ?w1] =>
      destruct (scan_loop_spec catalog [] w1 Hsafe) as (out & cs & Hrun & Hrows)
  end.
  rewrite (bind_Ret _ _ _ _ _ Hrun). unfold bind, ret. simpl.
  exists ([colored_line "Scanning system locations... This may take a few minutes." Colors.BLUE;
           newline] ++ out ++ [newline]), cs.
  split.
  - rewrite <- !app_assoc. reflexivity.
  - rewrite !table_rows_app, Hrows. unfold table_rows. cbn [List.filter].
    rewrite is_row_colored, is_row_newline. reflexivity.
Qed.

End Scan.

(** ** The claims about the scan *)

Section ScanClaims.

Lemma fits_zero : fits 0 = true.
Proof. reflexivity. Qed.

Lemma listed_exists (env : Env) (entry : string * string * bool) :
  listed env entry = true -> path_exists env (entry_path entry) = true.
Proof.
  unfold listed. destruct (probe env (entry_path entry)) as [[size_bytes [|]]|e] eqn:Hp;
    intros H; try discriminate.
  - eapply probe_success_exists. exact Hp.
  - exact H.
Qed.

Lemma record_of_path (env : Env) (entry : string * string * bool) :
  loc_path (record_of env entry) = entry_path entry.
Proof.
  destruct entry as [[path_str description] requires_sudo]. unfold record_of, entry_path.
  simpl. destruct (probe env path_str) as [[size_bytes [|]]|e]; reflexivity.
Qed.

Lemma listed_record_fits (env : Env) (entry : string * string * bool) :
  probe_safe env entry = true -> listed env entry = true ->
  fits (loc_size (record_of env entry)) = true.
Proof.
  destruct entry as [[path_str description] requires_sudo].
  unfold probe_safe, listed, record_of, entry_path. simpl fst.
  destruct (probe env path_str) as [[size_bytes [|]]|e]; simpl; intros Hs Hl;
    try discriminate; try apply fits_zero.
  destruct (Z.ltb_spec 0 size_bytes); [|discriminate].
  destruct (Z.leb_spec size_bytes 0); [lia | exact Hs].
Qed.

Lemma listed_records_fit (env : Env) (catalog : list (string * string * bool)) :
  forallb (probe_safe env) catalog = true ->
  forallb (fun l => fits (loc_size l)) (listed_records env catalog) = true.
Proof.
  unfold listed_records. induction catalog as [|entry rest IH]; intros H; [reflexivity|].
  simpl in H. apply andb_prop in H as [He Hrest]. simpl.
  destruct (listed env entry) eqn:Hl; [|now apply IH].
  simpl. rewrite (listed_record_fits env entry He Hl). now apply IH.
Qed.

Lemma listed_records_exist (env : Env) (catalog : list (string * string * bool)) :
  Forall (fun l => path_exists env (loc_path l) = true) (listed_records env catalog).
Proof.
  unfold listed_records. induction catalog as [|entry rest IH]; [constructor|].
  simpl. destruct (listed env entry) eqn:Hl; [|exact IH].
  simpl. constructor; [|exact IH].
  rewrite record_of_path. now apply listed_exists.
Qed.

(** The scan followed by the report. *)
Lemma report_spec (env : Env) (catalog : list (string * string * bool)) (w : World) :
  forallb (probe_safe env) catalog = true ->
  fits (total_size_of (listed_records env catalog)) = true ->
  let sorted := sort_desc (listed_records env catalog) in
  exists r out w',
    report env catalog w = (Ret r, w') /\
    stdout w' = stdout w ++ out /\
    heap w' !! r = Some sorted /\
    Forall2 (renders (path_width_of sorted) (desc_width_of sorted)) sorted (table_rows out).
Proof.
  intros Hsafe Htot sorted.
  destruct (scan_locations_spec env catalog w Hsafe) as (out1 & cs & Hscan & Hrows1).
  unfold report. rewrite (bind_Ret _ _ _ _ _ Hscan).
  unfold alloc, bind at 1. cbn [heap stdout calls].
  set (r := fresh_ref (heap w)).
  unfold print_colored, print, write, bind at 1 2 3. cbn [heap stdout calls].
  match goal with
  | |- context [bind (print_results_table r) _ ?x] => set (w2 := x)
  end.
  assert (Hr : heap w2 !! r = Some (listed_records env catalog)).
  { subst w2. cbn [heap]. apply lookup_insert_eq. }
  destruct (report_rows r w2 _ Hr (listed_records_fit env catalog Hsafe) Htot)
    as (out2 & Hrun & Hrows2).
  fold sorted in Hrun, Hrows2.
  rewrite (bind_Ret _ _ _ _ _ Hrun). unfold ret.
  eexists r, _, _. split; [reflexivity|]. cbn [heap stdout calls].
  split; [|split].
  - subst w2. cbn [stdout]. rewrite <- !app_assoc. reflexivity.
  - apply lookup_insert_eq.
  - rewrite !table_rows_app, Hrows1. unfold table_rows at 1 2 3. cbn [List.filter].
    pose proof (is_row_colored (str_mul "=" 100) Colors.BLUE) as H1.
    pose proof (is_row_colored "RESULTS:" (Colors.BOLD +:+ Colors.YELLOW)) as H2.
    unfold colored_line in H1, H2. rewrite H1, H2.
    change ("" +:+ newline) with newline. rewrite is_row_newline. exact Hrows2.
Qed.

Lemma listed_iff (env : Env) (entry : string * string * bool) :
  listed env entry = true <->
  (exists size_bytes,
     probe env (entry_path entry) = Ret (size_bytes, true) /\ 0 < size_bytes) \/
  (exists size_bytes,
     probe env (entry_path entry) = Ret (size_bytes, false) /\
     path_exists env (entry_path entry) = true).
Proof.
  unfold listed. destruct (probe env (entry_path entry)) as [[size_bytes [|]]|e]; split.
  - intros H. left. exists size_bytes. split; [reflexivity | lia].
  - intros [(s' & [= ->] & H)|(s' & [=] & _)]. lia.
  - intros H. right. exists size_bytes. now split.
  - intros [(s' & [=] & _)|(s' & _ & H)]. exact H.
  - discriminate.
  - intros [(s' & [=] & _)|(s' & [=] & _)].
Qed.

(** C1, as the code has it: when the scan goes through, the report has one
    row for every catalog entry whose probe succeeded with a size above
    zero or whose probe failed although the path exists, and no other row;
    a successful probe of size zero gives no row.  The path of every row
    exists. *)
Theorem rows_are_the_listed_probes (env : Env) (catalog : list (string * string * bool))
    (w : World) :
  forallb (probe_safe env) catalog = true ->
  fits (total_size_of (listed_records env catalog)) = true ->
  exists r out rendered,
    fst (report env catalog w) = Ret r /\
    stdout (snd (report env catalog w)) = stdout w ++ out /\
    Forall2 (renders (path_width_of rendered) (desc_width_of rendered))
            rendered (table_rows out) /\
    Permutation rendered (listed_records env catalog) /\
    length (table_rows out) = length (List.filter (listed env) catalog) /\
    Forall (fun l => path_exists env (loc_path l) = true) rendered /\
    (forall entry,
       listed env entry = true <->
       (exists size_bytes,
          probe env (entry_path entry) = Ret (size_bytes, true) /\ 0 < size_bytes) \/
       (exists size_bytes,
          probe env (entry_path entry) = Ret (size_bytes, false) /\
          path_exists env (entry_path entry) = true)).
Proof.
  intros Hsafe Htot.
  destruct (report_spec env catalog w Hsafe Htot) as (r & out & w' & Hrun & Hout & _ & Hrows).
  exists r, out, (sort_desc (listed_records env catalog)). rewrite Hrun. cbn [fst snd].
  split; [reflexivity|]. split; [exact Hout|]. split; [exact Hrows|].
  split; [apply sort_desc_perm|]. split; [|split].
  - rewrite <- (Forall2_length _ _ _ Hrows).
    rewrite (Permutation_length (sort_desc_perm _)).
    unfold listed_records. apply length_map.
  - eapply Permutation_Forall; [symmetry; apply sort_desc_perm|].
    apply listed_records_exist.
  - intros entry. apply listed_iff.
Qed.

Lemma rows_are_the_listed_probes_witness :
  forallb (probe_safe env_one_gb) catalog_one_gb = true /\
  exists r out rendered,
    fst (report env_one_gb catalog_one_gb empty_world) = Ret r /\
    stdout (snd (report env_one_gb catalog_one_gb empty_world)) = stdout empty_world ++ out /\
    Forall2 (renders (path_width_of rendered) (desc_width_of rendered))
            rendered (table_rows out) /\
    Permutation rendered (listed_records env_one_gb catalog_one_gb) /\
    length (table_rows out) = length (List.filter (listed env_one_gb) catalog_one_gb) /\
    Forall (fun l => path_exists env_one_gb (loc_path l) = true) rendered /\
    (forall entry,
       listed env_one_gb entry = true <->
       (exists size_bytes,
          probe env_one_gb (entry_path entry) = Ret (size_bytes, true) /\ 0 < size_bytes) \/
       (exists size_bytes,
          probe env_one_gb (entry_path entry) = Ret (size_bytes, false) /\
          path_exists env_one_gb (entry_path entry) = true)).
Proof.
  split; [reflexivity|].
  apply (rows_are_the_listed_probes env_one_gb catalog_one_gb empty_world); reflexivity.
Defined.

(** C1 as worded fails: the probe of an empty directory succeeds with size
    zero, and the report has no row for it. *)
Lemma rows_count_as_stated_fails : ~ rows_count_as_stated env_empty_dir catalog_empty_dir.
Proof. unfold rows_count_as_stated. vm_compute. discriminate. Qed.



(** The failures that the probe absorbs: a missing path gives [(0, False)]
    and spawns nothing; a timeout, a permission or other OS error of the spawned
    command, an exit status other than 0 and a first field that is not an
    integer all give [(0, False)]. *)
Lemma get_directory_size_failures (env : Env) (path : string) (w : World) :
  (path_exists env path = false ->
   get_directory_size env path w = (Ret (0, false), w)) /\
  (path_exists env path = true ->
   forall e, run env ["du"; "-sk"; path] = Failed e ->
     In e [TimeoutExpired; PermissionError; OSError; FileNotFoundError;
           ValueError; UnicodeDecodeError] ->
     fst (get_directory_size env path w) = Ret (0, false)) /\
  (path_exists env path = true ->
   forall rc out, run env ["du"; "-sk"; path] = Completed rc out -> rc <> 0 ->
     fst (get_directory_size env path w) = Ret (0, false)) /\
  (path_exists env path = true ->
   forall out field rest e,
     run env ["du"; "-sk"; path] = Completed 0 out ->
     split out = field :: rest -> int field = Raise e ->
     fst (get_directory_size env path w) = Ret (0, false)).
Proof.
  repeat split.
  - apply get_directory_size_absent.
  - intros Hex e Hrun He.
    rewrite (get_directory_size_raised env path w e Hex Hrun).
    simpl in He. decompose [or] He; subst; try reflexivity. contradiction.
  - intros Hex rc out Hrun Hrc.
    now rewrite (get_directory_size_status env path w rc out Hex Hrun Hrc).
  - intros Hex out field rest e Hrun Hsplit Hint.
    rewrite (get_directory_size_parsed env path w out Hex Hrun).
    now rewrite Hsplit, Hint.
Qed.

(** C5 at the input where the code departs from it: the path exists, [du]
    exits with status 0 and prints nothing.  [result.stdout.split()] is
    empty, its element 0 raises [IndexError], which the [except] clause
    does not name: the probe raises instead of returning [(0, False)], and
    the whole scan ends with that exception. *)
Theorem probe_raises_on_empty_output :
  get_directory_size env_silent_du "/opt/homebrew" empty_world =
    (Raise IndexError, spawned empty_world ["du"; "-sk"; "/opt/homebrew"]) /\
  existsb (subclass IndexError) probe_errors = false /\
  fst (report env_silent_du catalog_empty_dir empty_world) = Raise IndexError.
Proof.
  split; [vm_compute; reflexivity|].
  split; vm_compute; reflexivity.
Qed.

End ScanClaims.

(** ** The subdirectory scan *)

Section Subdirectories.

Variable env : Env.

Lemma large_dirs_loop_app (min_size_gb : float) (good rest : list string) :
  forall large_dirs kept,
    large_dirs_loop min_size_gb good large_dirs = (kept, Ret tt) ->
    large_dirs_loop min_size_gb (good ++ rest) large_dirs =
    large_dirs_loop min_size_gb rest kept.
Proof.
  induction good as [|line good IH]; intros large_dirs kept H.
  - simpl in H. injection H as ->. reflexivity.
  - simpl in *. destruct line as [|c line]; [now apply IH|].
    destruct (split_sep tab (String c line)) as [|part0 [|part1 [|? ?]]];
      try (now apply IH).
    destruct (int part0) as [size_kb|e]; [|discriminate].
    destruct (0 <? size_kb); [|now apply IH].
    destruct (bytes_to_gb (size_kb * 1024)) as [size_gb|e]; [|discriminate].
    destruct (float_ge size_gb min_size_gb); now apply IH.
Qed.

Lemma large_dirs_loop_bad (min_size_gb : float) (bad part0 part1 : string)
    (rest : list string) (kept : list (string * Z)) :
  bad <> "" ->
  split_sep tab bad = [part0; part1] ->
  int part0 = Raise ValueError ->
  large_dirs_loop min_size_gb (bad :: rest) kept = (kept, Raise ValueError).
Proof.
  intros Hne Hsplit Hint. simpl. destruct bad as [|c bad]; [congruence|].
  now rewrite Hsplit, Hint.
Qed.

Lemma find_large_directories_run (root_path : string) (min_size_gb : float) (w : World) :
  path_exists env root_path = true ->
  path_is_dir env root_path = true ->
  find_large_directories env root_path min_size_gb w =
    (except_pass probe_errors
       match run env (find_argv root_path) with
       | Failed e => ([], Raise e)
       | Completed returncode out =>
           if returncode =? 0 then
             large_dirs_loop min_size_gb (split_sep line_feed (strip out)) []
           else ([], Ret tt)
       end,
     spawned w (find_argv root_path)).
Proof.
  intros Hex Hdir.
  unfold find_large_directories, bind, exists_, is_dir, attempt, subprocess_run, lift, ret.
  rewrite Hex, Hdir. cbn [negb orb]. cbv beta iota.
  destruct (run env (find_argv root_path)) as [rc out|e]; reflexivity.
Qed.

(** C7, as the code has it: a root that is missing or not a directory
    gives the empty list without any command being spawned; a timeout, a
    permission or other OS error of the batched command and an exit status
    other than 0 give the empty list; a line whose size field is not an
    integer ends the scan of the output, and what the lines before it
    contributed is returned.  No error is propagated in any of these
    cases. *)
Theorem find_large_failures (root_path : string) (min_size_gb : float) (w : World) :
  (path_exists env root_path = false \/ path_is_dir env root_path = false ->
   find_large_directories env root_path min_size_gb w = (Ret [], w)) /\
  (path_exists env root_path = true -> path_is_dir env root_path = true ->
   (forall e,
      run env (find_argv root_path) = Failed e ->
      In e [TimeoutExpired; PermissionError; OSError; FileNotFoundError;
            ValueError; UnicodeDecodeError] ->
      find_large_directories env root_path min_size_gb w =
        (Ret [], spawned w (find_argv root_path))) /\
   (forall rc out,
      run env (find_argv root_path) = Completed rc out -> rc <> 0 ->
      find_large_directories env root_path min_size_gb w =
        (Ret [], spawned w (find_argv root_path))) /\
   (forall out good bad rest part0 part1 kept,
      run env (find_argv root_path) = Completed 0 out ->
      split_sep line_feed (strip out) = good ++ bad :: rest ->
      large_dirs_loop min_size_gb good [] = (kept, Ret tt) ->
      bad <> "" ->
      split_sep tab bad = [part0; part1] ->
      int part0 = Raise ValueError ->
      find_large_directories env root_path min_size_gb w =
        (Ret kept, spawned w (find_argv root_path)))).
Proof.
  split.
  - intros H.
    unfold find_large_directories, bind, exists_, is_dir, ret.
    destruct (path_exists env root_path); [|reflexivity].
    destruct H as [H|H]; [discriminate|]. now rewrite H.
  - intros Hex Hdir.
    pose proof (find_large_directories_run root_path min_size_gb w Hex Hdir) as Hrun.
    repeat split.
    + intros e He Hin. rewrite Hrun, He.
      simpl in Hin. decompose [or] Hin; subst; try reflexivity. contradiction.
    + intros rc out Hr Hrc. rewrite Hrun, Hr.
      destruct (Z.eqb_spec rc 0); [contradiction | reflexivity].
    + intros out good bad rest part0 part1 kept Hr Hlines Hgood Hne Hsplit Hint.
      rewrite Hrun, Hr. cbn [Z.eqb]. rewrite Hlines.
      rewrite (large_dirs_loop_app _ _ _ _ _ Hgood).
      now rewrite (large_dirs_loop_bad _ _ _ _ _ _ Hne Hsplit Hint).
Qed.

End Subdirectories.

Section SubdirectoryClaims.

Lemma find_large_failures_witness :
  path_exists env_timeout "/private/var" = true /\
  path_is_dir env_timeout "/private/var" = true /\
  run env_timeout (find_argv "/private/var") = Failed TimeoutExpired /\
  find_large_directories env_timeout "/private/var" float_half empty_world =
    (Ret [], spawned empty_world (find_argv "/private/var")).
Proof.
  split; [reflexivity|]. split; [reflexivity|]. split; [reflexivity|].
  apply (proj1 (proj2 (find_large_failures env_timeout "/private/var" float_half empty_world)
                  eq_refl eq_refl) TimeoutExpired eq_refl).
  left. reflexivity.
Defined.

(** C7 as worded fails: the second line of the output cannot be parsed,
    and the directory of the first line is returned. *)
Lemma unparsable_gives_empty_fails : ~ unparsable_gives_empty env_bad_line "/r" float_one.
Proof.
  unfold unparsable_gives_empty. intros H.
  specialize (H ("2097152" +:+ String tab "/r/a" +:+ newline +:+
                 "n/a" +:+ String tab "/r/b" +:+ newline +:+
                 "3145728" +:+ String tab "/r/c" +:+ newline)
                ("n/a" +:+ String tab "/r/b") "n/a" "/r/b" eq_refl).
  assert (Hin : In ("n/a" +:+ String tab "/r/b")
                   (split_sep line_feed
                      (strip ("2097152" +:+ String tab "/r/a" +:+ newline +:+
                              "n/a" +:+ String tab "/r/b" +:+ newline +:+
                              "3145728" +:+ String tab "/r/c" +:+ newline)))).
  { vm_compute. right. left. reflexivity. }
  specialize (H Hin eq_refl eq_refl). vm_compute in H. discriminate H.
Qed.

(** What [find path -maxdepth 1 -type d] visits: the starting directory
    itself, then its immediate subdirectories. *)
Lemma find_dirs_depth_1 (name : string) (kb : Z) (children : list node) (path : string) :
  find_dirs (Dir name kb children) path 1 =
  (path, Dir name kb children) :: subdirectories path children.
Proof.
  simpl. f_equal. unfold subdirectories.
  induction children as [|c rest IH]; [reflexivity|].
  simpl. rewrite IH. destruct c; reflexivity.
Qed.

(** C6 at the input where the code departs from it: [/Library] holds the
    directories [Caches] (2 GB) and [Logs] (512 kB).  [find] with
    [-maxdepth 1] and no [-mindepth 1] also visits [/Library] itself, so
    the result has an entry for the root next to the one immediate
    subdirectory that reaches 1 GB. *)
Theorem find_large_lists_the_root :
  subdirectories "/Library" [ Dir "Caches" 2097152 []; Dir "Logs" 512 []; File "notes.txt" 8 ] =
    [ ("/Library/Caches", Dir "Caches" 2097152 []);
      ("/Library/Logs", Dir "Logs" 512 []) ] /\
  find_dirs tree_library "/Library" 1 =
    [ ("/Library", tree_library);
      ("/Library/Caches", Dir "Caches" 2097152 []);
      ("/Library/Logs", Dir "Logs" 512 []) ] /\
  find_large_directories (fs_env "/Library" tree_library) "/Library" float_one empty_world =
    (Ret [ ("/Library", 2097676 * 1024); ("/Library/Caches", 2097152 * 1024) ],
     spawned empty_world (find_argv "/Library")).
Proof.
  split; [reflexivity|]. split; [reflexivity|]. vm_compute. reflexivity.
Qed.

End SubdirectoryClaims.

(** * Further properties of the script *)

(** ** The probe: results, effects, exceptions *)

Section ProbeProperties.

Variable env : Env.

(** What a probe returns: a failed probe reports size 0; a successful one
    has seen the path, [du] has exited with status 0, and the size is the
    integer in front of its output times 1024, a whole number of
    kilobytes. *)
Theorem probe_result_shape (path : string) (w : World) (size_bytes : Z)
    (success : bool) :
  fst (get_directory_size env path w) = Ret (size_bytes, success) ->
  (success = false -> size_bytes = 0) /\
  (success = true ->
   path_exists env path = true /\
   exists out field rest size_kb,
     run env ["du"; "-sk"; path] = Completed 0 out /\
     split out = field :: rest /\
     int field = Ret size_kb /\
     size_bytes = size_kb * 1024).
Proof.
  intros H. destruct (path_exists env path) eqn:Hex.
  - destruct (run env ["du"; "-sk"; path]) as [rc out|e] eqn:Hrun.
    + destruct (Z.eq_dec rc 0) as [->|Hrc].
      * rewrite (get_directory_size_parsed env path w out Hex Hrun) in H. simpl in H.
        destruct (split out) as [|field rest] eqn:Hsplit; [discriminate|].
        destruct (int field) as [size_kb|e] eqn:Hint; cbv beta iota in H;
          injection H as <- <-.
        -- split; [discriminate|]. intros _. split; [reflexivity|].
           exists out, field, rest, size_kb. repeat split; assumption.
        -- split; [reflexivity | discriminate].
      * rewrite (get_directory_size_status env path w rc out Hex Hrun Hrc) in H.
        injection H as <- <-. split; [reflexivity | discriminate].
    + rewrite (get_directory_size_raised env path w e Hex Hrun) in H. cbn [fst] in H.
      destruct (existsb (subclass e) probe_errors); [|discriminate].
      injection H as <- <-. split; [reflexivity | discriminate].
  - rewrite (get_directory_size_absent env path w Hex) in H.
    injection H as <- <-. split; [reflexivity | discriminate].
Qed.

(** A probe writes nothing and changes no list object; it spawns
    [du -sk path] once when the path exists and nothing when it does not,
    whatever the outcome. *)
Theorem probe_effects (path : string) (w : World) :
  heap (snd (get_directory_size env path w)) = heap w /\
  stdout (snd (get_directory_size env path w)) = stdout w /\
  calls (snd (get_directory_size env path w)) =
    calls w ++ (if path_exists env path then [["du"; "-sk"; path]] else []).
Proof.
  destruct (path_exists env path) eqn:Hex.
  - destruct (run env ["du"; "-sk"; path]) as [rc out|e] eqn:Hrun.
    + destruct (Z.eq_dec rc 0) as [->|Hrc].
      * rewrite (get_directory_size_parsed env path w out Hex Hrun). now repeat split.
      * rewrite (get_directory_size_status env path w rc out Hex Hrun Hrc). now repeat split.
    + rewrite (get_directory_size_raised env path w e Hex Hrun). now repeat split.
  - rewrite (get_directory_size_absent env path w Hex). simpl.
    rewrite app_nil_r. now repeat split.
Qed.

(** The exceptions that leave a probe: one that the spawned command
    raised and that is neither a timeout, a [ValueError] nor an [OSError]
    of any kind, or the [IndexError] of an output without fields after a
    zero exit status.  In both cases the path exists. *)
Theorem probe_escaping_exceptions (path : string) (w : World) (e : exn) :
  fst (get_directory_size env path w) = Raise e ->
  path_exists env path = true /\
  ((run env ["du"; "-sk"; path] = Failed e /\
    In e [IndexError; OverflowError; KeyboardInterrupt]) \/
   (e = IndexError /\
    exists out, run env ["du"; "-sk"; path] = Completed 0 out /\ split out = [])).
Proof.
  intros H. destruct (path_exists env path) eqn:Hex.
  - split; [reflexivity|].
    destruct (run env ["du"; "-sk"; path]) as [rc out|e'] eqn:Hrun.
    + destruct (Z.eq_dec rc 0) as [->|Hrc].
      * rewrite (get_directory_size_parsed env path w out Hex Hrun) in H. simpl in H.
        destruct (split out) as [|field rest] eqn:Hsplit.
        -- injection H as <-. right. split; [reflexivity|]. now exists out.
        -- destruct (int field); discriminate.
      * rewrite (get_directory_size_status env path w rc out Hex Hrun Hrc) in H.
        discriminate.
    + rewrite (get_directory_size_raised env path w e' Hex Hrun) in H. simpl fst in H.
      left. destruct e'; simpl in H; try discriminate; injection H as <-;
        (split; [reflexivity|]); simpl; auto.
  - rewrite (get_directory_size_absent env path w Hex) in H. discriminate.
Qed.

End ProbeProperties.

Lemma probe_result_shape_witness :
  fst (get_directory_size env_one_gb "/data" empty_world) = Ret (1073741824, true) /\
  path_exists env_one_gb "/data" = true.
Proof.
  assert (H : fst (get_directory_size env_one_gb "/data" empty_world) = Ret (1073741824, true))
    by reflexivity.
  split; [exact H|].
  exact (proj1 (proj2 (probe_result_shape env_one_gb "/data" empty_world _ _ H) eq_refl)).
Defined.

Lemma probe_escaping_exceptions_witness :
  fst (get_directory_size env_silent_du "/opt/homebrew" empty_world) = Raise IndexError /\
  path_exists env_silent_du "/opt/homebrew" = true.
Proof.
  assert (H : fst (get_directory_size env_silent_du "/opt/homebrew" empty_world) =
              Raise IndexError) by reflexivity.
  split; [exact H|].
  exact (proj1 (probe_escaping_exceptions env_silent_du "/opt/homebrew" empty_world _ H)).
Defined.

(** ** The scan: order, sizes, commands, failure *)

Section ScanProperties.

Variable env : Env.

Lemma get_directory_size_exact (path : string) (w : World) :
  get_directory_size env path w =
    (probe env path,
     mkWorld (heap w) (stdout w) (calls w ++ spawned_by_probe env path)).
Proof.
  unfold probe, spawned_by_probe. destruct (path_exists env path) eqn:Hex.
  - destruct (run env ["du"; "-sk"; path]) as [rc out|e] eqn:Hrun.
    + destruct (Z.eq_dec rc 0) as [->|Hrc].
      * now rewrite !(get_directory_size_parsed env path _ out Hex Hrun).
      * now rewrite !(get_directory_size_status env path _ rc out Hex Hrun Hrc).
    + now rewrite !(get_directory_size_raised env path _ e Hex Hrun).
  - rewrite !get_directory_size_absent by exact Hex.
    now rewrite app_nil_r, world_eta.
Qed.

Lemma scan_entry_raises (locations : list Location) (entry : string * string * bool)
    (w : World) (e : exn) :
  probe env (entry_path entry) = Raise e ->
  exists out,
    scan_entry env locations entry w =
      (Raise e,
       mkWorld (heap w) (stdout w ++ out)
               (calls w ++ spawned_by_probe env (entry_path entry))) /\
    table_rows out = [].
Proof.
  destruct entry as [[path_str description] requires_sudo]. unfold entry_path. simpl fst.
  intros Hp. unfold scan_entry, print_end, bind at 1, write.
  unfold bind. rewrite get_directory_size_exact, Hp. cbn [heap stdout calls].
  eexists. split; [reflexivity|].
  unfold table_rows. cbn [List.filter]. now rewrite is_row_progress.
Qed.

Lemma scan_entry_calls (locations : list Location) (entry : string * string * bool)
    (w : World) :
  probe_safe env entry = true ->
  exists out,
    scan_entry env locations entry w =
      (Ret (if listed env entry then locations ++ [record_of env entry] else locations),
       mkWorld (heap w) (stdout w ++ out)
               (calls w ++ spawned_by_probe env (entry_path entry))) /\
    table_rows out = [].
Proof.
  intros Hsafe.
  destruct (scan_entry_spec env locations entry w Hsafe) as (out & cs & Hrun & Hrows).
  exists out. split; [|exact Hrows]. rewrite Hrun. do 2 f_equal.
  destruct entry as [[path_str description] requires_sudo].
  unfold entry_path. simpl fst.
  assert (Hc : calls (snd (scan_entry env locations (path_str, description, requires_sudo) w))
               = calls w ++ spawned_by_probe env path_str).
  { unfold scan_entry, print_end, bind at 1, write.
    unfold bind at 1. rewrite get_directory_size_exact.
    destruct (probe env path_str) as [[size_bytes success]|e]; [|reflexivity].
    destruct (success && (0 <? size_bytes)).
    - unfold bind, lift. destruct (bytes_to_gb size_bytes); reflexivity.
    - unfold bind, exists_, ret.
      destruct (negb success); [|reflexivity].
      destruct (path_exists env path_str); reflexivity. }
  rewrite Hrun in Hc. cbn [snd calls] in Hc. exact Hc.
Qed.

Lemma scan_loop_calls (catalog : list (string * string * bool)) :
  forall (locations : list Location) (w : World),
    forallb (probe_safe env) catalog = true ->
    exists out,
      scan_loop env catalog locations w =
        (Ret (locations ++ listed_records env catalog),
         mkWorld (heap w) (stdout w ++ out) (calls w ++ du_calls env catalog)) /\
      table_rows out = [].
Proof.
  unfold listed_records, du_calls.
  induction catalog as [|entry rest IH]; intros locations w Hsafe.
  - exists []. simpl. unfold ret. rewrite !app_nil_r, world_eta. now split.
  - simpl in Hsafe. apply andb_prop in Hsafe as [He Hrest].
    destruct (scan_entry_calls locations entry w He) as (out1 & Hrun1 & Hrows1).
    simpl scan_loop. rewrite (bind_Ret _ _ _ _ _ Hrun1).
    match goal with
    | |- context [scan_loop env rest ?ls ?w1] =>
        destruct (IH ls w1 Hrest) as (out2 & Hrun2 & Hrows2)
    end.
    exists (out1 ++ out2). split.
    + rewrite Hrun2. cbn [heap stdout calls List.filter]. rewrite <- !app_assoc.
      unfold spawned_by_probe.
      destruct (listed env entry), (path_exists env (entry_path entry));
        cbn [map app]; rewrite <- ?app_assoc; reflexivity.
    + rewrite table_rows_app, Hrows1, Hrows2. reflexivity.
Qed.

Lemma scan_locations_exact (catalog : list (string * string * bool)) (w : World) :
  forallb (probe_safe env) catalog = true ->
  exists out,
    scan_locations env catalog w =
      (Ret (listed_records env catalog),
       mkWorld (heap w) (stdout w ++ out) (calls w ++ du_calls env catalog)) /\
    table_rows out = [].
Proof.
  intros Hsafe. unfold scan_locations, print_colored, print, write.
  unfold bind at 1 2.
  match goal with
  | |- context [bind (scan_loop env catalog [] ) _ ?w1] =>
      destruct (scan_loop_calls catalog [] w1 Hsafe) as (out & Hrun & Hrows)
  end.
  rewrite (bind_Ret _ _ _ _ _ Hrun). unfold bind, ret. simpl.
  exists ([colored_line "Scanning system locations... This may take a few minutes." Colors.BLUE;
           newline] ++ out ++ [newline]).
  split.
  - rewrite <- !app_assoc. reflexivity.
  - rewrite !table_rows_app, Hrows. unfold table_rows. cbn [List.filter].
    rewrite is_row_colored, is_row_newline. reflexivity.
Qed.

Lemma probe_raise_exists (path : string) (e : exn) :
  probe env path = Raise e -> path_exists env path = true.
Proof.
  unfold probe. destruct (path_exists env path) eqn:Hex; [reflexivity|].
  rewrite get_directory_size_absent by exact Hex. discriminate.
Qed.

Lemma probe_success_kilobytes (path : string) (size_bytes : Z) :
  probe env path = Ret (size_bytes, true) -> exists size_kb, size_bytes = size_kb * 1024.
Proof.
  unfold probe. destruct (path_exists env path) eqn:Hex.
  - destruct (run env ["du"; "-sk"; path]) as [rc out|e] eqn:Hrun.
    + destruct (Z.eq_dec rc 0) as [->|Hrc].
      * rewrite (get_directory_size_parsed env path _ out Hex Hrun). cbn [fst].
        destruct (split out) as [|field rest]; [discriminate|].
        destruct (int field) as [size_kb|e]; intros [= <-]. now exists size_kb.
      * rewrite (get_directory_size_status env path _ rc out Hex Hrun Hrc). discriminate.
    + rewrite (get_directory_size_raised env path _ e Hex Hrun). cbn [fst].
      destruct (existsb (subclass e) probe_errors); discriminate.
  - rewrite get_directory_size_absent by exact Hex. discriminate.
Qed.

(** The records of a scan that goes through are those of the catalog
    entries that pass one of the two tests, one record per entry and in
    catalog order, with the path, the description and the access flag of
    the entry. *)
Theorem scan_keeps_catalog_order (catalog : list (string * string * bool)) (w : World) :
  forallb (probe_safe env) catalog = true ->
  exists locations,
    fst (scan_locations env catalog w) = Ret locations /\
    Forall2 (fun l entry =>
               loc_path l = fst (fst entry) /\ loc_desc l = snd (fst entry) /\
               loc_sudo l = snd entry)
            locations (List.filter (listed env) catalog) /\
    (length locations <= length catalog)%nat.
Proof.
  intros Hsafe. destruct (scan_locations_exact catalog w Hsafe) as (out & Hrun & _).
  exists (listed_records env catalog). rewrite Hrun. split; [reflexivity|].
  unfold listed_records. split.
  - induction (List.filter (listed env) catalog) as [|entry rest IH]; simpl; constructor.
    + destruct entry as [[path_str description] requires_sudo]. unfold record_of.
      destruct (probe env path_str) as [[size_bytes [|]]|e]; now repeat split.
    + exact IH.
  - rewrite length_map. apply List.filter_length_le.
Qed.

(** In a scan that goes through, a record has size 0 exactly when its
    probe failed although the path exists; every other record has the
    size that its probe measured, which is positive and a whole number of
    kilobytes. *)
Theorem scan_record_sizes (catalog : list (string * string * bool)) (w : World) :
  forallb (probe_safe env) catalog = true ->
  exists locations,
    fst (scan_locations env catalog w) = Ret locations /\
    Forall (fun l =>
              (loc_size l = 0 /\ path_exists env (loc_path l) = true /\
               exists size_bytes, probe env (loc_path l) = Ret (size_bytes, false)) \/
              (0 < loc_size l /\ probe env (loc_path l) = Ret (loc_size l, true) /\
               exists size_kb, loc_size l = size_kb * 1024))
           locations.
Proof.
  intros Hsafe. destruct (scan_locations_exact catalog w Hsafe) as (out & Hrun & _).
  exists (listed_records env catalog). rewrite Hrun. split; [reflexivity|].
  unfold listed_records. apply List.Forall_forall. intros l Hin.
  apply in_map_iff in Hin as (entry & <- & Hentry).
  apply List.filter_In in Hentry as [_ Hlisted].
  destruct entry as [[path_str description] requires_sudo].
  unfold listed, entry_path in Hlisted. simpl fst in Hlisted. unfold record_of.
  destruct (probe env path_str) as [[size_bytes [|]]|e] eqn:Hp; try discriminate; simpl.
  - right. split; [now apply Z.ltb_lt|]. split; [exact Hp|].
    eapply probe_success_kilobytes. exact Hp.
  - left. split; [reflexivity|]. split; [exact Hlisted|]. exists size_bytes. exact Hp.
Qed.


Lemma scan_loop_raises (pre post : list (string * string * bool))
    (entry : string * string * bool) (e : exn) :
  forallb (probe_safe env) pre = true ->
  probe env (entry_path entry) = Raise e ->
  forall (locations : list Location) (w : World),
    exists out,
      scan_loop env (pre ++ entry :: post) locations w =
        (Raise e,
         mkWorld (heap w) (stdout w ++ out)
                 (calls w ++ du_calls env pre ++ [["du"; "-sk"; entry_path entry]])) /\
      table_rows out = [].
Proof.
  intros Hsafe Hp. induction pre as [|first pre IH]; intros locations w.
  - destruct (scan_entry_raises locations entry w e Hp) as (out & Hrun & Hrows).
    exists out. simpl app. simpl scan_loop. rewrite (bind_Raise _ _ _ _ _ Hrun).
    split; [|exact Hrows]. unfold spawned_by_probe.
    now rewrite (probe_raise_exists _ _ Hp).
  - simpl in Hsafe. apply andb_prop in Hsafe as [Hfirst Hpre].
    destruct (scan_entry_calls locations first w Hfirst) as (out1 & Hrun1 & Hrows1).
    simpl app. simpl scan_loop. rewrite (bind_Ret _ _ _ _ _ Hrun1).
    match goal with
    | |- context [scan_loop env _ ?ls ?w1] =>
        destruct (IH Hpre ls w1) as (out2 & Hrun2 & Hrows2)
    end.
    exists (out1 ++ out2). rewrite Hrun2. cbn [heap stdout calls]. split.
    + rewrite <- !app_assoc. unfold du_calls, spawned_by_probe. cbn [List.filter].
      destruct (path_exists env (entry_path first)); reflexivity.
    + rewrite table_rows_app, Hrows1, Hrows2. reflexivity.
Qed.

Lemma report_raises (pre post : list (string * string * bool))
    (entry : string * string * bool) (e : exn) (w : World) :
  forallb (probe_safe env) pre = true ->
  probe env (entry_path entry) = Raise e ->
  exists out,
    report env (pre ++ entry :: post) w =
      (Raise e,
       mkWorld (heap w) (stdout w ++ out)
               (calls w ++ du_calls env pre ++ [["du"; "-sk"; entry_path entry]])) /\
    table_rows out = [].
Proof.
  intros Hsafe Hp.
  unfold report, scan_locations, print_colored, print, write.
  unfold bind at 1. unfold bind at 1 2.
  match goal with
  | |- context [bind (scan_loop env _ []) _ ?w1] =>
      destruct (scan_loop_raises pre post entry e Hsafe Hp [] w1) as (out & Hrun & Hrows)
  end.
  rewrite (bind_Raise _ _ _ _ _ Hrun). cbn [heap stdout calls].
  exists ([colored_line "Scanning system locations... This may take a few minutes." Colors.BLUE;
           newline] ++ out).
  split.
  - rewrite <- !app_assoc. reflexivity.
  - rewrite table_rows_app, Hrows. unfold table_rows. cbn [List.filter].
    rewrite is_row_colored, is_row_newline. reflexivity.
Qed.

(** One probe that raises ends the scan and the report with it: the
    exception leaves [report], no table row has been written, no list
    object has been created, and the catalog entries after the one that
    raised are never probed. *)
Theorem scan_aborts_on_escaping_exception (pre post : list (string * string * bool))
    (entry : string * string * bool) (e : exn) (w : World) :
  forallb (probe_safe env) pre = true ->
  probe env (fst (fst entry)) = Raise e ->
  fst (report env (pre ++ entry :: post) w) = Raise e /\
  heap (snd (report env (pre ++ entry :: post) w)) = heap w /\
  calls (snd (report env (pre ++ entry :: post) w)) =
    calls w ++ map (fun entry => ["du"; "-sk"; fst (fst entry)])
                   (List.filter (fun entry => path_exists env (fst (fst entry))) pre)
            ++ [["du"; "-sk"; fst (fst entry)]] /\
  exists out,
    stdout (snd (report env (pre ++ entry :: post) w)) = stdout w ++ out /\
    table_rows out = [].
Proof.
  intros Hsafe Hp.
  destruct (report_raises pre post entry e w Hsafe Hp) as (out & Hrun & Hrows).
  rewrite Hrun. cbn [fst snd heap stdout calls].
  split; [reflexivity|]. split; [reflexivity|]. split; [reflexivity|].
  now exists out.
Qed.

End ScanProperties.

Lemma scan_keeps_catalog_order_witness :
  forallb (probe_safe env_one_gb) catalog_one_gb = true /\
  exists locations,
    fst (scan_locations env_one_gb catalog_one_gb empty_world) = Ret locations /\
    Forall2 (fun l entry =>
               loc_path l = fst (fst entry) /\ loc_desc l = snd (fst entry) /\
               loc_sudo l = snd entry)
            locations (List.filter (listed env_one_gb) catalog_one_gb) /\
    (length locations <= length catalog_one_gb)%nat.
Proof.
  split; [reflexivity|].
  apply (scan_keeps_catalog_order env_one_gb catalog_one_gb empty_world). reflexivity.
Defined.

Lemma scan_record_sizes_witness :
  forallb (probe_safe env_one_gb) catalog_one_gb = true /\
  exists locations,
    fst (scan_locations env_one_gb catalog_one_gb empty_world) = Ret locations /\
    Forall (fun l =>
              (loc_size l = 0 /\ path_exists env_one_gb (loc_path l) = true /\
               exists size_bytes, probe env_one_gb (loc_path l) = Ret (size_bytes, false)) \/
              (0 < loc_size l /\ probe env_one_gb (loc_path l) = Ret (loc_size l, true) /\
               exists size_kb, loc_size l = size_kb * 1024))
           locations.
Proof.
  split; [reflexivity|].
  apply (scan_record_sizes env_one_gb catalog_one_gb empty_world). reflexivity.
Defined.


Lemma scan_aborts_on_escaping_exception_witness :
  probe env_silent_du "/opt/homebrew" = Raise IndexError /\
  fst (report env_silent_du
         ([] ++ ("/opt/homebrew", "Homebrew (Apple Silicon)", true) :: catalog_one_gb)
         empty_world) = Raise IndexError.
Proof.
  split; [reflexivity|].
  exact (proj1 (scan_aborts_on_escaping_exception env_silent_du [] catalog_one_gb
                  ("/opt/homebrew", "Homebrew (Apple Silicon)", true) IndexError
                  empty_world eq_refl eq_refl)).
Defined.

(** ** The report: repetition, effects, geometry *)

Section ReportProperties.

Lemma insert_desc_head (x : Location) (l : list Location) :
  Forall (size_ge x) l -> insert_desc x l = x :: l.
Proof.
  destruct 1 as [|y l Hy _]; [reflexivity|]. simpl.
  unfold size_ge in Hy. destruct (Z.ltb_spec (loc_size x) (loc_size y)); [lia | reflexivity].
Qed.

Lemma sort_desc_sorted_id (l : list Location) :
  StronglySorted size_ge l -> sort_desc l = l.
Proof.
  induction 1 as [|x l Hs IH Hall]; [reflexivity|].
  simpl. rewrite IH. now apply insert_desc_head.
Qed.

Lemma sort_desc_idempotent (l : list Location) : sort_desc (sort_desc l) = sort_desc l.
Proof. apply sort_desc_sorted_id, sort_desc_sorted. Qed.

Lemma renders_deterministic (pw dw : Z) (locations : list Location) :
  forall rows1 rows2,
    Forall2 (renders pw dw) locations rows1 ->
    Forall2 (renders pw dw) locations rows2 ->
    rows1 = rows2.
Proof.
  induction locations as [|l rest IH]; intros rows1 rows2 H1 H2;
    inversion H1 as [|? line1 ? rest1 Hl1 Hr1]; inversion H2 as [|? line2 ? rest2 Hl2 Hr2];
    subst; [reflexivity|].
  destruct Hl1 as (g1 & Hg1 & ->). destruct Hl2 as (g2 & Hg2 & ->).
  assert (g1 = g2) as -> by congruence.
  f_equal. now apply IH.
Qed.

(** Rendering the same list object a second time prints the same table
    again and leaves the heap as the first rendering left it: the list is
    already in table order. *)
Theorem report_twice_same_table (r : ref) (w : World) (locations : list Location) :
  heap w !! r = Some locations ->
  forallb (fun l => fits (loc_size l)) locations = true ->
  fits (total_size_of locations) = true ->
  exists out w1 w2,
    print_results_table r w = (Ret tt, w1) /\
    stdout w1 = stdout w ++ out /\
    print_results_table r w1 = (Ret tt, w2) /\
    stdout w2 = stdout w1 ++ out /\
    heap w2 = heap w1.
Proof.
  intros Hr Hfit Htot. destruct locations as [|l0 rest].
  - pose proof (print_results_table_empty r w Hr) as H1.
    eexists _, _, _. split; [exact H1|]. cbn [stdout heap]. split; [reflexivity|].
    rewrite print_results_table_empty by exact Hr. now split.
  - set (locations := l0 :: rest) in *.
    assert (Hne : locations <> []) by discriminate.
    destruct (print_results_table_spec r w locations Hr Hne Hfit Htot)
      as (rows1 & tg1 & Hrows1 & Htg1 & Hrun1).
    set (sorted := sort_desc locations) in *.
    set (w1 := mkWorld (<[r := sorted]> (heap w))
                 (stdout w ++ table_head sorted ++ rows1 ++ [newline; total_line tg1; newline])
                 (calls w)) in *.
    assert (Hr1 : heap w1 !! r = Some sorted) by apply lookup_insert_eq.
    assert (Hne1 : sorted <> []).
    { intros H. apply Hne. now apply sort_desc_nil. }
    assert (Hperm : Permutation sorted locations) by apply sort_desc_perm.
    assert (Hfit1 : forallb (fun l => fits (loc_size l)) sorted = true).
    { eapply forallb_perm; [symmetry; exact Hperm | exact Hfit]. }
    assert (Htot1 : fits (total_size_of sorted) = true).
    { now rewrite (total_size_perm _ _ Hperm). }
    destruct (print_results_table_spec r w1 sorted Hr1 Hne1 Hfit1 Htot1)
      as (rows2 & tg2 & Hrows2 & Htg2 & Hrun2).
    assert (Hid : sort_desc sorted = sorted) by apply sort_desc_idempotent.
    cbv zeta in Hrows2, Hrun2. rewrite Hid in Hrows2, Hrun2.
    rewrite (total_size_perm _ _ Hperm) in Htg2.
    assert (tg2 = tg1) as -> by congruence.
    rewrite (renders_deterministic _ _ _ _ _ Hrows2 Hrows1) in Hrun2.
    eexists _, w1, _. split; [exact Hrun1|]. split; [reflexivity|].
    split; [exact Hrun2|]. cbn [stdout heap]. split; [reflexivity|].
    subst w1. cbn [heap]. apply insert_insert_eq.
Qed.

Lemma rows_loop_frame (pw dw : Z) (locations : list Location) :
  forall (total : Z) (w : World),
    exists o out,
      rows_loop pw dw locations total w =
        (o, mkWorld (heap w) (stdout w ++ out) (calls w)).
Proof.
  induction locations as [|l rest IH]; intros total w.
  - exists (Ret total), []. simpl. unfold ret. now rewrite app_nil_r, world_eta.
  - simpl. unfold bind, lift.
    destruct (bytes_to_gb (loc_size l)) as [g|e].
    + unfold print, write.
      match goal with
      | |- context [rows_loop pw dw rest ?t ?w1] =>
          destruct (IH t w1) as (o & out & Hrun)
      end.
      rewrite Hrun. cbn [heap stdout calls]. eexists o, _.
      rewrite <- app_assoc. reflexivity.
    + exists (Raise e), []. now rewrite app_nil_r, world_eta.
Qed.

Lemma print_results_table_frame (r : ref) (w : World) :
  exists o h out,
    print_results_table r w = (o, mkWorld h (stdout w ++ out) (calls w)).
Proof.
  unfold print_results_table, bind at 1, load.
  destruct (default [] (heap w !! r)) as [|l0 rest].
  - eexists _, _, _. reflexivity.
  - unfold sort_in_place, load, store, print_colored, print, write.
    unfold bind at 1 2 3 4 5. cbn [heap stdout calls].
    match goal with
    | |- context [bind (rows_loop ?pw ?dw ?ls ?t) ?k ?w2] =>
        destruct (rows_loop_frame pw dw ls t w2) as (o & out & Hrun)
    end.
    unfold bind at 1. rewrite Hrun. cbn [heap stdout calls].
    destruct o as [total|e].
    + unfold bind, lift. destruct (bytes_to_gb total); cbn [heap stdout calls];
        eexists _, _, _; rewrite <- !app_assoc; reflexivity.
    + eexists _, _, _. rewrite <- !app_assoc. reflexivity.
Qed.

(** The report runs no command and takes nothing back: whatever list the
    reference holds and however the call ends, the commands spawned so far
    are what they were and the output has only grown.  An empty list gives
    the one line ["No large directories found."] and no total. *)
Theorem report_never_spawns (r : ref) (w : World) :
  calls (snd (print_results_table r w)) = calls w /\
  (exists out, stdout (snd (print_results_table r w)) = stdout w ++ out) /\
  (default [] (heap w !! r) = [] ->
   print_results_table r w =
     (Ret tt,
      mkWorld (heap w)
              (stdout w ++ [colored_line "No large directories found." Colors.YELLOW])
              (calls w))).
Proof.
  destruct (print_results_table_frame r w) as (o & h & out & Hrun).
  split; [|split].
  - now rewrite Hrun.
  - exists out. now rewrite Hrun.
  - intros Hl. unfold print_results_table, bind, load. rewrite Hl. reflexivity.
Qed.

Lemma len_rjust (s : string) (w : Z) : len (rjust s w) = Z.max (len s) w.
Proof. unfold rjust. rewrite len_app, len_str_mul. lia. Qed.

Lemma len_perm_text (requires_sudo : bool) (size_bytes : Z) :
  len (perm_text requires_sudo size_bytes) = 11.
Proof. unfold perm_text. destruct (requires_sudo && (size_bytes =? 0)); reflexivity. Qed.

Lemma desc_width_covers (locations : list Location) (l : Location) :
  In l locations -> len (loc_desc l) <= 50 -> len (loc_desc l) <= desc_width_of locations.
Proof.
  intros Hin H50.
  assert (len (loc_desc l) <= max_of (map (fun row => len (loc_desc row)) locations)) as H.
  { apply max_of_In. apply (in_map (fun row => len (loc_desc row))) in Hin. exact Hin. }
  unfold desc_width_of. lia.
Qed.

(** The geometry of the table: the header is [path_width + desc_width + 30]
    characters long and the rule of [=] signs three less; a row whose
    description has at most 50 characters and whose size takes at most 10
    is two characters shorter than the header; a longer description is
    not cut and makes its row longer. *)
Theorem table_geometry (locations : list Location) (l : Location) (size_gb : float) :
  In l locations ->
  let pw := path_width_of locations in
  let dw := desc_width_of locations in
  len (header_line pw dw) = pw + dw + 30 /\
  len (str_mul "=" (pw + dw + size_width + perm_width)) = pw + dw + 27 /\
  (len (loc_desc l) <= 50 -> len (format_2f size_gb) <= 10 ->
   len (row_line pw dw l size_gb) = pw + dw + 28) /\
  (50 < len (loc_desc l) -> pw + dw + 28 < len (row_line pw dw l size_gb)).
Proof.
  intros Hin pw dw.
  pose proof (path_width_bounds locations) as Hpw. fold pw in Hpw.
  pose proof (desc_width_bounds locations) as Hdw. fold dw in Hdw.
  assert (Hcell : len (ljust (display_path pw (loc_path l)) pw) = pw)
    by (apply len_ljust_display; lia).
  split; [|split; [|split]].
  - unfold header_line, size_width, perm_width. rewrite !len_app, !len_ljust.
    change (len "Path") with 4. change (len "Description") with 11.
    change (len "Size") with 4. change (len "Permission") with 10.
    change (len " ") with 1. lia.
  - rewrite len_str_mul. unfold size_width, perm_width. lia.
  - intros Hd Hf. pose proof (desc_width_covers locations l Hin Hd) as Hc. fold dw in Hc.
    unfold row_line, perm_width. rewrite !len_app, Hcell, !len_ljust, len_rjust, len_perm_text.
    change (len " ") with 1. change (len " GB ") with 4. lia.
  - intros Hd.
    unfold row_line, perm_width. rewrite !len_app, Hcell, !len_ljust, len_rjust, len_perm_text.
    change (len " ") with 1. change (len " GB ") with 4. lia.
Qed.

End ReportProperties.

Lemma report_twice_same_table_witness :
  world_ties.(heap) !! 7%nat = Some locations_ties /\
  exists out w1 w2,
    print_results_table 7%nat world_ties = (Ret tt, w1) /\
    stdout w1 = stdout world_ties ++ out /\
    print_results_table 7%nat w1 = (Ret tt, w2) /\
    stdout w2 = stdout w1 ++ out /\
    heap w2 = heap w1.
Proof.
  split; [reflexivity|].
  apply (report_twice_same_table 7%nat world_ties locations_ties); reflexivity.
Defined.

Lemma table_geometry_witness :
  In record_longer locations_longer /\
  len (loc_desc record_longer) <= 50 /\
  len (format_2f float_one) <= 10 /\
  len (row_line (path_width_of locations_longer) (desc_width_of locations_longer)
                record_longer float_one) =
    path_width_of locations_longer + desc_width_of locations_longer + 28.
Proof.
  assert (Hin : In record_longer locations_longer) by (left; reflexivity).
  assert (Hd : len (loc_desc record_longer) <= 50) by (vm_compute; discriminate).
  assert (Hf : len (format_2f float_one) <= 10) by (vm_compute; discriminate).
  split; [exact Hin|]. split; [exact Hd|]. split; [exact Hf|].
  exact (proj1 (proj2 (proj2 (table_geometry locations_longer record_longer float_one Hin)))
           Hd Hf).
Defined.

(** ** The subdirectory scan: what it returns and what it runs *)

Section SubdirectoryProperties.

Variable env : Env.

Lemma large_dirs_loop_sound (min_size_gb : float) (all : list string) :
  forall (lines : list string) (large_dirs res : list (string * Z)) (o : outcome unit),
    incl lines all ->
    Forall (listing_gives min_size_gb all) large_dirs ->
    large_dirs_loop min_size_gb lines large_dirs = (res, o) ->
    Forall (listing_gives min_size_gb all) res.
Proof.
  induction lines as [|line rest IH]; intros large_dirs res o Hincl Hacc Hrun.
  - simpl in Hrun. now injection Hrun as <- _.
  - assert (Hrest : incl rest all) by (intros x Hx; apply Hincl; now right).
    assert (Hline : In line all) by (apply Hincl; now left).
    cbn [large_dirs_loop] in Hrun.
    destruct line as [|c line]; [now apply (IH _ _ _ Hrest Hacc Hrun)|].
    destruct (split_sep tab (String c line)) as [|part0 [|part1 [|? ?]]] eqn:Hsplit;
      try (now apply (IH _ _ _ Hrest Hacc Hrun)).
    destruct (int part0) as [size_kb|e] eqn:Hint; [|now injection Hrun as <- _].
    destruct (Z.ltb_spec 0 size_kb) as [Hpos|_];
      [|now apply (IH _ _ _ Hrest Hacc Hrun)].
    destruct (bytes_to_gb (size_kb * 1024)) as [size_gb|e] eqn:Hgb;
      [|now injection Hrun as <- _].
    destruct (float_ge size_gb min_size_gb) eqn:Hge;
      [|now apply (IH _ _ _ Hrest Hacc Hrun)].
    apply (IH _ _ _ Hrest) in Hrun; [exact Hrun|].
    apply Forall_app. split; [exact Hacc|]. constructor; [|constructor].
    exists (String c line). split; [exact Hline|].
    exists part0, size_kb, size_gb. simpl. now repeat split.
Qed.

(** Whatever [find_large_directories] returns comes from the listing:
    the root exists and is a directory, the command exited with status 0,
    and every entry is the path of a line whose size field is a positive
    integer number of kilobytes, with that size times 1024 and at least
    [min_size_gb] gigabytes.  This holds also when a later line ended the
    scan of the listing. *)
Theorem find_large_entries_come_from_lines (root_path : string) (min_size_gb : float)
    (w : World) (dirs : list (string * Z)) (d : string * Z) :
  fst (find_large_directories env root_path min_size_gb w) = Ret dirs ->
  In d dirs ->
  path_exists env root_path = true /\
  path_is_dir env root_path = true /\
  exists out,
    run env (find_argv root_path) = Completed 0 out /\
    listing_gives min_size_gb (split_sep line_feed (strip out)) d.
Proof.
  intros Hrun Hin.
  destruct (path_exists env root_path) eqn:Hex.
  2:{ unfold find_large_directories, bind, exists_, is_dir, ret in Hrun.
      rewrite Hex in Hrun. simpl in Hrun. injection Hrun as <-. destruct Hin. }
  destruct (path_is_dir env root_path) eqn:Hdir.
  2:{ unfold find_large_directories, bind, exists_, is_dir, ret in Hrun.
      rewrite Hex, Hdir in Hrun. simpl in Hrun. injection Hrun as <-. destruct Hin. }
  split; [reflexivity|]. split; [reflexivity|].
  rewrite (find_large_directories_run env root_path min_size_gb w Hex Hdir) in Hrun.
  cbn [fst] in Hrun.
  destruct (run env (find_argv root_path)) as [rc out|e].
  - destruct (Z.eqb_spec rc 0) as [->|Hrc].
    + exists out. split; [reflexivity|].
      destruct (large_dirs_loop min_size_gb (split_sep line_feed (strip out)) [])
        as [res o] eqn:Hloop.
      assert (Hres : Forall (listing_gives min_size_gb (split_sep line_feed (strip out))) res).
      { eapply large_dirs_loop_sound; [apply incl_refl | constructor | exact Hloop]. }
      assert (dirs = res) as ->.
      { unfold except_pass in Hrun. destruct o as [[]|e].
        - now injection Hrun.
        - destruct (existsb (subclass e) probe_errors); [now injection Hrun | discriminate]. }
      rewrite List.Forall_forall in Hres. now apply Hres.
    + simpl in Hrun. injection Hrun as <-. destruct Hin.
  - unfold except_pass in Hrun.
    destruct (existsb (subclass e) probe_errors); [|discriminate].
    injection Hrun as <-. destruct Hin.
Qed.



(** [find_large_directories] writes nothing and changes no list object;
    it spawns the one [find] command when the root exists and is a
    directory, and nothing otherwise, however it ends. *)
Theorem find_large_effects (root_path : string) (min_size_gb : float) (w : World) :
  heap (snd (find_large_directories env root_path min_size_gb w)) = heap w /\
  stdout (snd (find_large_directories env root_path min_size_gb w)) = stdout w /\
  calls (snd (find_large_directories env root_path min_size_gb w)) =
    calls w ++ (if path_exists env root_path && path_is_dir env root_path
                then [find_argv root_path] else []).
Proof.
  destruct (path_exists env root_path) eqn:Hex; [destruct (path_is_dir env root_path) eqn:Hdir|].
  - rewrite (find_large_directories_run env root_path min_size_gb w Hex Hdir).
    now repeat split.
  - unfold find_large_directories, bind, exists_, is_dir, ret. rewrite Hex, Hdir.
    simpl. now rewrite app_nil_r.
  - unfold find_large_directories, bind, exists_, is_dir, ret. rewrite Hex.
    simpl. now rewrite app_nil_r.
Qed.

End SubdirectoryProperties.

Lemma find_large_entries_come_from_lines_witness :
  fst (find_large_directories (fs_env "/Library" tree_library) "/Library" float_one
         empty_world) =
    Ret [("/Library", 2097676 * 1024); ("/Library/Caches", 2097152 * 1024)] /\
  path_is_dir (fs_env "/Library" tree_library) "/Library" = true.
Proof.
  assert (H : fst (find_large_directories (fs_env "/Library" tree_library) "/Library"
                     float_one empty_world) =
              Ret [("/Library", 2097676 * 1024); ("/Library/Caches", 2097152 * 1024)])
    by (vm_compute; reflexivity).
  split; [exact H|].
  exact (proj1 (proj2 (find_large_entries_come_from_lines
                         (fs_env "/Library" tree_library) "/Library" float_one empty_world
                         _ ("/Library/Caches", 2097152 * 1024) H
                         (or_intror (or_introl eq_refl))))).
Defined.


(** ** The rest of [main]: platform, subdirectories, snapshots *)

Section MainProperties.

Variable env : Env.

(** On any platform but [darwin] the script prints its banner and a
    warning and exits with status 1: no command is spawned, no list
    object is created, nothing is scanned. *)
Theorem script_refuses_other_platforms (platform home : string)
    (str_exn : exn -> string) (w : World) :
  platform <> "darwin" ->
  script env platform home str_exn w =
    (1,
     mkWorld (heap w)
             (stdout w ++ banner_lines ++
              [colored_line (warning_mark +:+
                             "  WARNING: This script is designed for macOS only!")
                            Colors.YELLOW])
             (calls w)).
Proof.
  intros Hne. apply String.eqb_neq in Hne.
  unfold script, main, banner, print_colored, print, write, bind, ret.
  rewrite Hne. cbn [negb heap stdout calls]. f_equal. f_equal.
  unfold banner_lines, colored_line. rewrite <- !app_assoc. reflexivity.
Qed.

Lemma strip_empty_no_snapshots (out : string) :
  strip out = "" -> snapshots_of out = [].
Proof. intros H. unfold snapshots_of. now rewrite H. Qed.

Lemma check_snapshots_completed (w : World) (rc : Z) (out : string) :
  run env tmutil_argv = Completed rc out ->
  check_snapshots env w =
    (Ret tt,
     mkWorld (heap w)
             (stdout w ++ snapshot_heading ::
              (if (rc =? 0) && negb (String.eqb (strip out) "") then
                 match snapshots_of out with
                 | [] => []
                 | _ => snapshot_warning (length (snapshots_of out))
                 end
               else []))
             (calls w ++ [tmutil_argv])).
Proof.
  intros Hrun.
  unfold check_snapshots, print_colored, print, write, bind at 1, try_except.
  unfold bind at 1, subprocess_run. cbn [heap stdout calls]. rewrite Hrun.
  destruct ((rc =? 0) && negb (String.eqb (strip out) "")); [|reflexivity].
  destruct (snapshots_of out) as [|s0 rest]; [reflexivity|].
  unfold bind, snapshot_warning, colored_line, snapshot_heading, colored_line.
  cbn [heap stdout calls]. rewrite <- !app_assoc. reflexivity.
Qed.

(** The snapshot check warns exactly when [tmutil] exits with status 0
    and at least one line of its output starts with
    [com.apple.TimeMachine]; the number it prints is the number of such
    lines.  (The test for an empty output in the script changes nothing:
    an empty output has no such line.) *)
Theorem snapshot_warning_counts_lines (w : World) (rc : Z) (out : string) :
  run env tmutil_argv = Completed rc out ->
  check_snapshots env w =
    (Ret tt,
     mkWorld (heap w)
             (stdout w ++ snapshot_heading ::
              (if (rc =? 0) && (0 <? Z.of_nat (length (snapshots_of out)))
               then snapshot_warning (length (snapshots_of out)) else []))
             (calls w ++ [tmutil_argv])).
Proof.
  intros Hrun. rewrite (check_snapshots_completed w rc out Hrun). do 3 f_equal.
  destruct (rc =? 0); [|reflexivity]. cbn [andb].
  destruct (String.eqb_spec (strip out) "") as [Hempty|Hne].
  - now rewrite (strip_empty_no_snapshots out Hempty).
  - cbn [negb]. destruct (snapshots_of out); reflexivity.
Qed.

(** What the snapshot check absorbs: a timeout, a missing [tmutil] and a
    permission error end it quietly after the heading.  Any other
    exception of the command leaves it - also a plain [OSError], which the
    size probe would have absorbed. *)
Theorem snapshot_check_errors (w : World) (e : exn) :
  run env tmutil_argv = Failed e ->
  check_snapshots env w =
    (if existsb (subclass e) [TimeoutExpired; FileNotFoundError; PermissionError]
     then Ret tt else Raise e,
     mkWorld (heap w) (stdout w ++ [snapshot_heading]) (calls w ++ [tmutil_argv])) /\
  (In e [TimeoutExpired; FileNotFoundError; PermissionError] ->
   fst (check_snapshots env w) = Ret tt) /\
  (e = OSError ->
   fst (check_snapshots env w) = Raise OSError /\
   existsb (subclass e) probe_errors = true).
Proof.
  intros Hrun.
  assert (H : check_snapshots env w =
    (if existsb (subclass e) [TimeoutExpired; FileNotFoundError; PermissionError]
     then Ret tt else Raise e,
     mkWorld (heap w) (stdout w ++ [snapshot_heading]) (calls w ++ [tmutil_argv]))).
  { unfold check_snapshots, print_colored, print, write, bind at 1, try_except.
    unfold bind at 1, subprocess_run. cbn [heap stdout calls]. rewrite Hrun.
    fold snapshot_errors.
    destruct (existsb (subclass e) snapshot_errors); reflexivity. }
  split; [exact H|]. rewrite H. split.
  - intros Hin. simpl in Hin. decompose [or] Hin; subst; try reflexivity. contradiction.
  - intros ->. split; reflexivity.
Qed.

End MainProperties.

Lemma script_refuses_other_platforms_witness :
  "linux" <> "darwin" /\
  fst (script env_one_gb "linux" "/home/u" (fun _ => "") empty_world) = 1.
Proof.
  assert (H : "linux" <> "darwin") by discriminate.
  split; [exact H|].
  now rewrite (script_refuses_other_platforms env_one_gb "linux" "/home/u" (fun _ => "")
                 empty_world H).
Defined.

Lemma snapshot_warning_counts_lines_witness :
  length (snapshots_of ("Snapshots for disk /:" +:+ newline +:+
                        "com.apple.TimeMachine.2024-01-01-000000.local" +:+ newline +:+
                        "com.apple.TimeMachine.2024-01-02-000000.local" +:+ newline)) = 2%nat /\
  stdout (snd (check_snapshots env_snapshots empty_world)) =
    snapshot_heading :: snapshot_warning 2.
Proof.
  split; [reflexivity|].
  now rewrite (snapshot_warning_counts_lines env_snapshots empty_world 0 _ eq_refl).
Defined.

Lemma snapshot_check_errors_witness :
  run env_timeout tmutil_argv = Failed TimeoutExpired /\
  fst (check_snapshots env_timeout empty_world) = Ret tt.
Proof.
  split; [reflexivity|].
  apply (proj1 (proj2 (snapshot_check_errors env_timeout empty_world TimeoutExpired eq_refl))).
  left. reflexivity.
Defined.

(** ** The listing of large subdirectories *)

Section KeyLocations.

Variable env : Env.

Lemma insert_dir_desc_perm (x : string * Z) (l : list (string * Z)) :
  Permutation (insert_dir_desc x l) (x :: l).
Proof.
  induction l as [|y l IH]; simpl; [reflexivity|].
  destruct (snd x <? snd y); [|reflexivity].
  rewrite IH. apply perm_swap.
Qed.

Lemma sort_dirs_desc_perm (l : list (string * Z)) : Permutation (sort_dirs_desc l) l.
Proof.
  induction l as [|x l IH]; simpl; [reflexivity|].
  rewrite insert_dir_desc_perm. now constructor.
Qed.

Lemma insert_dir_desc_sorted (x : string * Z) (l : list (string * Z)) :
  StronglySorted dir_ge l -> StronglySorted dir_ge (insert_dir_desc x l).
Proof.
  induction 1 as [|y l Hs IH Hall]; simpl.
  - repeat constructor.
  - destruct (Z.ltb_spec (snd x) (snd y)).
    + constructor; [exact IH|].
      rewrite insert_dir_desc_perm. constructor; [unfold dir_ge; lia | exact Hall].
    + constructor; [now constructor|].
      constructor; [unfold dir_ge; lia|].
      eapply List.Forall_impl; [|exact Hall]. unfold dir_ge. intros; lia.
Qed.

Lemma sort_dirs_desc_sorted (l : list (string * Z)) : StronglySorted dir_ge (sort_dirs_desc l).
Proof.
  induction l as [|x l IH]; simpl; [constructor | now apply insert_dir_desc_sorted].
Qed.

Lemma print_dirs_spec (dirs : list (string * Z)) :
  forall w : World,
    Forall (fun d => fits (snd d) = true) dirs ->
    exists lines,
      print_dirs dirs w = (Ret tt, mkWorld (heap w) (stdout w ++ lines) (calls w)) /\
      Forall2 shows_dir dirs lines.
Proof.
  induction dirs as [|[dir_path size_bytes] rest IH]; intros w Hfit.
  - exists []. simpl. unfold ret. rewrite app_nil_r, world_eta. split; [reflexivity | constructor].
  - inversion Hfit as [|? ? Hd Hrest]; subst. simpl in Hd.
    destruct (fits_Ret _ Hd) as [g Hg].
    simpl print_dirs. unfold bind at 1, lift. rewrite Hg.
    unfold print, write, bind at 1.
    match goal with
    | |- context [print_dirs rest ?w1] => destruct (IH w1 Hrest) as (lines & Hrun & Hshow)
    end.
    exists (dir_line dir_path g :: lines). rewrite Hrun. cbn [heap stdout calls]. split.
    + rewrite <- app_assoc. reflexivity.
    + constructor; [exists g; now split | exact Hshow].
Qed.

Lemma large_dirs_loop_fit (min_size_gb : float) :
  forall (lines : list string) (large_dirs res : list (string * Z)) (o : outcome unit),
    Forall (fun d => fits (snd d) = true) large_dirs ->
    large_dirs_loop min_size_gb lines large_dirs = (res, o) ->
    Forall (fun d => fits (snd d) = true) res.
Proof.
  induction lines as [|line rest IH]; intros large_dirs res o Hacc Hrun.
  - simpl in Hrun. now injection Hrun as <- _.
  - cbn [large_dirs_loop] in Hrun.
    destruct line as [|c line]; [now apply (IH _ _ _ Hacc Hrun)|].
    destruct (split_sep tab (String c line)) as [|part0 [|part1 [|? ?]]];
      try (now apply (IH _ _ _ Hacc Hrun)).
    destruct (int part0) as [size_kb|e]; [|now injection Hrun as <- _].
    destruct (0 <? size_kb); [|now apply (IH _ _ _ Hacc Hrun)].
    destruct (bytes_to_gb (size_kb * 1024)) as [size_gb|e] eqn:Hgb;
      [|now injection Hrun as <- _].
    destruct (float_ge size_gb min_size_gb); [|now apply (IH _ _ _ Hacc Hrun)].
    apply IH in Hrun; [exact Hrun|].
    apply Forall_app. split; [exact Hacc|]. constructor; [|constructor].
    simpl. unfold fits. now rewrite Hgb.
Qed.

(** The outcome of [find_large_directories] with the world it leaves:
    the entries can all be shown in gigabytes. *)
Lemma find_large_directories_frame (root_path : string) (min_size_gb : float) (w : World) :
  exists o cs,
    find_large_directories env root_path min_size_gb w =
      (o, mkWorld (heap w) (stdout w) (calls w ++ cs)) /\
    (forall dirs, o = Ret dirs -> Forall (fun d => fits (snd d) = true) dirs) /\
    (forall w', fst (find_large_directories env root_path min_size_gb w') = o).
Proof.
  destruct (path_exists env root_path) eqn:Hex; [destruct (path_is_dir env root_path) eqn:Hdir|].
  - eexists _, [find_argv root_path].
    split; [apply (find_large_directories_run env root_path min_size_gb w Hex Hdir)|].
    split.
    + intros dirs Hd.
      destruct (run env (find_argv root_path)) as [rc out|e].
      * destruct (rc =? 0).
        -- destruct (large_dirs_loop min_size_gb (split_sep line_feed (strip out)) [])
             as [res o] eqn:Hloop.
           pose proof (large_dirs_loop_fit min_size_gb _ [] res o (List.Forall_nil _) Hloop) as Hres.
           unfold except_pass in Hd. destruct o as [[]|e].
           ++ now injection Hd as <-.
           ++ destruct (existsb (subclass e) probe_errors); [now injection Hd as <-|discriminate].
        -- simpl in Hd. injection Hd as <-. constructor.
      * unfold except_pass in Hd.
        destruct (existsb (subclass e) probe_errors); [|discriminate].
        injection Hd as <-. constructor.
    + intros w'. now rewrite (find_large_directories_run env root_path min_size_gb w' Hex Hdir).
  - exists (Ret []), []. split; [|split].
    + unfold find_large_directories, bind, exists_, is_dir, ret. rewrite Hex, Hdir.
      simpl. now rewrite app_nil_r, world_eta.
    + intros dirs [= <-]. constructor.
    + intros w'. unfold find_large_directories, bind, exists_, is_dir, ret.
      now rewrite Hex, Hdir.
  - exists (Ret []), []. split; [|split].
    + unfold find_large_directories, bind, exists_, is_dir, ret. rewrite Hex.
      simpl. now rewrite app_nil_r, world_eta.
    + intros dirs [= <-]. constructor.
    + intros w'. unfold find_large_directories, bind, exists_, is_dir, ret.
      now rewrite Hex.
Qed.

(** For a root that exists and has large directories, the subdirectory
    pass prints two headings, then one line for each of the ten largest
    entries at most, largest first, then an empty line.  Printing them
    cannot fail: every entry was converted to gigabytes once already. *)
Theorem key_location_lists_ten_largest (root_path desc : string) (w : World)
    (dirs : list (string * Z)) :
  path_exists env root_path = true ->
  fst (find_large_directories env root_path float_half w) = Ret dirs ->
  dirs <> [] ->
  exists lines,
    fst (scan_key_location env (root_path, desc) w) = Ret tt /\
    stdout (snd (scan_key_location env (root_path, desc) w)) =
      stdout w ++
      [ colored_line ("Scanning " +:+ desc +:+ "...") Colors.CYAN;
        colored_line ("Large directories in " +:+ desc +:+ ":") Colors.YELLOW ] ++
      lines ++ [newline] /\
    Forall2 shows_dir (firstn 10 (sort_dirs_desc dirs)) lines /\
    length lines = Nat.min 10 (length dirs) /\
    StronglySorted dir_ge (sort_dirs_desc dirs) /\
    Permutation (sort_dirs_desc dirs) dirs.
Proof.
  intros Hex Hfind Hne.
  set (w1 := mkWorld (heap w)
               (stdout w ++ [colored_line ("Scanning " +:+ desc +:+ "...") Colors.CYAN])
               (calls w)).
  destruct (find_large_directories_frame root_path float_half w1)
    as (o & cs & Hrun & Hfit & Hsame).
  rewrite (Hsame w) in Hfind. subst o. specialize (Hfit dirs eq_refl).
  assert (Hfit10 : Forall (fun d => fits (snd d) = true) (firstn 10 (sort_dirs_desc dirs))).
  { apply Forall_take. eapply Permutation_Forall; [|exact Hfit].
    symmetry. apply sort_dirs_desc_perm. }
  set (w2 := mkWorld (heap w1)
               (stdout w1 ++ [colored_line ("Large directories in " +:+ desc +:+ ":")
                                           Colors.YELLOW])
               (calls w1 ++ cs)).
  destruct (print_dirs_spec _ w2 Hfit10) as (lines & Hprint & Hshow).
  assert (Hkey : scan_key_location env (root_path, desc) w =
                 (Ret tt, mkWorld (heap w2) ((stdout w2 ++ lines) ++ [newline]) (calls w2))).
  { unfold scan_key_location, bind at 1, exists_. rewrite Hex.
    unfold print_colored at 1, print, write, bind at 1. fold w1.
    rewrite (bind_Ret _ _ _ _ _ Hrun).
    destruct dirs as [|d0 rest]; [congruence|].
    unfold print_colored, print, write, bind at 1. cbn [heap stdout calls]. fold w2.
    rewrite (bind_Ret _ _ _ _ _ Hprint). reflexivity. }
  exists lines. rewrite Hkey. cbn [fst snd stdout]. split; [reflexivity|]. split.
  - subst w2 w1. cbn [stdout]. rewrite <- !app_assoc. reflexivity.
  - split; [exact Hshow|]. split.
    + rewrite <- (Forall2_length _ _ _ Hshow), length_firstn.
      now rewrite (Permutation_length (sort_dirs_desc_perm dirs)).
    + split; [apply sort_dirs_desc_sorted | apply sort_dirs_desc_perm].
Qed.

End KeyLocations.

Lemma key_location_lists_ten_largest_witness :
  path_exists (fs_env "/Library" tree_library) "/Library" = true /\
  exists lines,
    fst (scan_key_location (fs_env "/Library" tree_library)
           ("/Library", "System Library subdirectories") empty_world) = Ret tt /\
    Forall2 shows_dir
      (firstn 10 (sort_dirs_desc
                    [("/Library", 2097676 * 1024); ("/Library/Caches", 2097152 * 1024)]))
      lines.
Proof.
  split; [reflexivity|].
  assert (Hfind : fst (find_large_directories (fs_env "/Library" tree_library) "/Library"
                         float_half empty_world) =
                  Ret [("/Library", 2097676 * 1024); ("/Library/Caches", 2097152 * 1024)])
    by (vm_compute; reflexivity).
  destruct (key_location_lists_ten_largest (fs_env "/Library" tree_library) "/Library"
              "System Library subdirectories" empty_world _ eq_refl Hfind)
    as (lines & Hret & _ & Hshow & _); [discriminate|].
  exists lines. split; [exact Hret | exact Hshow].
Defined.

(** ** Gigabytes: range and exactness *)

Section Gigabytes.

(** [bytes_to_gb] never raises for a size below 2^1053 bytes in absolute
    value, far beyond any disk, and its result is then a finite number. *)
Theorem gigabytes_never_overflow (n : Z) :
  Z.abs n < 2 ^ 1053 ->
  exists g, bytes_to_gb n = Ret g /\ float_is_finite g = true.
Proof.
  intros H. unfold bytes_to_gb.
  apply int_truediv_pow2_finite; [lia|].
  change (1023 + 30) with 1053. exact H.
Qed.

Lemma pos_iter_xO (m k : positive) : Zpos (Pos.iter xO m k) = Zpos m * 2 ^ Zpos k.
Proof.
  induction k as [|k IH] using Pos.peano_ind.
  - simpl. lia.
  - rewrite Pos.iter_succ, Pos2Z.inj_succ, Z.pow_succ_r by lia.
    rewrite Pos2Z.inj_xO, IH. lia.
Qed.

Lemma binary_round_aux_exact (m : positive) (e : Z) :
  Zpos (digits2_pos m) = 53 -> -1074 <= e <= 971 ->
  binary_round_aux 53 1024 false (Zpos m) e loc_Exact = S754_finite false m e.
Proof.
  intros Hd He. unfold binary_round_aux, shr_fexp, shr.
  cbn [Zdigits2 shr_record_of_loc]. rewrite Hd, fexp_53.
  replace (Z.max (53 + e - 53) (-1074) - e) with 0 by lia.
  cbn [shr_m loc_of_shr_record round_nearest_even Zdigits2 shr_record_of_loc].
  rewrite Hd, fexp_53.
  replace (Z.max (53 + e - 53) (-1074) - e) with 0 by lia.
  cbn [shr_m]. destruct (Z.leb_spec e (1024 - 53)); [reflexivity | lia].
Qed.

Lemma binary_round_exact (m : positive) :
  Zpos (digits2_pos m) <= 53 ->
  exists mz k,
    0 <= k /\ Zpos mz = Zpos m * 2 ^ k /\
    binary_round 53 1024 false m (-30) = S754_finite false mz (-30 - k).
Proof.
  intros Hd. unfold binary_round, shl_align. rewrite fexp_53.
  assert (Hpos : 0 < Zpos (digits2_pos m)) by lia.
  destruct (Z.max (Z.pos (digits2_pos m) + -30 - 53) (-1074) - -30) as [|p|p] eqn:Hdiff;
    try lia.
  - exists m, 0. split; [lia|]. split; [lia|].
    rewrite binary_round_aux_exact by lia. reflexivity.
  - exists (Pos.iter xO m p), (Zpos p). split; [lia|]. split; [apply pos_iter_xO|].
    rewrite binary_round_aux_exact.
    + f_equal. lia.
    + rewrite digits2_iter_xO. lia.
    + lia.
Qed.

Lemma div_half_even_scale (a b c : Z) :
  0 < b -> 0 < c -> div_half_even (a * c) (b * c) = div_half_even a b.
Proof.
  intros Hb Hc. unfold div_half_even.
  rewrite Z.div_mul_cancel_r by lia.
  rewrite Z.mul_mod_distr_r by lia.
  replace (2 * (a mod b * c)) with (2 * (a mod b) * c) by lia.
  rewrite <- Zmult_compare_compat_r by lia. reflexivity.
Qed.

(** Below 2^53 bytes (8 PiB) the conversion to gigabytes is exact, so
    what is displayed is the size itself divided by 2^30 and rounded to
    hundredths, ties to the even hundredth: no second rounding comes from
    the float. *)
Theorem gigabytes_display_is_exact (n : Z) :
  0 <= n < 2 ^ 53 ->
  exists g,
    bytes_to_gb n = Ret g /\
    format_2f g =
      str_of_nat_Z (div_half_even (n * 100) (2 ^ 30) / 100) +:+ "." +:+
      two_digits (div_half_even (n * 100) (2 ^ 30) mod 100).
Proof.
  intros [H0 H53]. destruct n as [|m|m]; [| |lia].
  - exists (S754_zero false). split; reflexivity.
  - assert (Hd : Zpos (digits2_pos m) <= 53).
    { change (Zpos (digits2_pos m)) with (Zdigits2 (Zpos m)). apply Zdigits2_le; lia. }
    destruct (binary_round_exact m Hd) as (mz & k & Hk & Hmz & Hround).
    exists (S754_finite false mz (-30 - k)). split.
    + unfold bytes_to_gb, int_truediv_pow2, binary_normalize.
      change (Z.opp 30) with (Zneg 30).
      now rewrite Hround.
    + unfold format_2f, sign_str. rewrite !append_nil.
      assert (Hh : hundredths mz (-30 - k) = div_half_even (Zpos m * 100) (2 ^ 30)).
      { unfold hundredths. destruct (Z.leb_spec 0 (-30 - k)); [lia|].
        replace (- (-30 - k)) with (30 + k) by lia.
        rewrite Z.pow_add_r by lia. rewrite Hmz.
        replace (Z.pos m * 2 ^ k * 100) with (Z.pos m * 100 * 2 ^ k) by lia.
        apply div_half_even_scale; [reflexivity|]. apply Z.pow_pos_nonneg; lia. }
      now rewrite Hh.
Qed.

End Gigabytes.

Lemma gigabytes_never_overflow_witness :
  Z.abs 18446744073709551615 < 2 ^ 1053 /\
  exists g, bytes_to_gb 18446744073709551615 = Ret g /\ float_is_finite g = true.
Proof.
  assert (H : Z.abs 18446744073709551615 < 2 ^ 1053) by reflexivity.
  split; [exact H|]. exact (gigabytes_never_overflow _ H).
Defined.

Lemma gigabytes_display_is_exact_witness :
  0 <= 134217728 < 2 ^ 53 /\
  exists g,
    bytes_to_gb 134217728 = Ret g /\
    format_2f g =
      str_of_nat_Z (div_half_even (134217728 * 100) (2 ^ 30) / 100) +:+ "." +:+
      two_digits (div_half_even (134217728 * 100) (2 ^ 30) mod 100).
Proof.
  assert (H : 0 <= 134217728 < 2 ^ 53) by (split; [discriminate | reflexivity]).
  split; [exact H|]. exact (gigabytes_display_is_exact _ H).
Defined.

(** ** A run that nothing interrupts *)

Section WholeRun.

Variable env : Env.






End WholeRun.


(** ** A run that a probe interrupts *)

Section InterruptedRun.

Variable env : Env.

(** When the probe of a catalog entry raises, the script ends with exit
    status 1 before any table row is written.  Its last line tells the
    user that the run was cancelled when the exception is a
    [KeyboardInterrupt], and names an unexpected error otherwise. *)
Theorem script_exits_1_when_a_probe_raises (home : string) (str_exn : exn -> string)
    (pre post : list (string * string * bool)) (entry : string * string * bool)
    (e : exn) (w : World) :
  system_locations home = pre ++ entry :: post ->
  forallb (probe_safe env) pre = true ->
  probe env (fst (fst entry)) = Raise e ->
  fst (script env "darwin" home str_exn w) = 1 /\
  heap (snd (script env "darwin" home str_exn w)) = heap w /\
  exists out,
    stdout (snd (script env "darwin" home str_exn w)) =
      stdout w ++ out ++
      (if subclass e KeyboardInterrupt then [newline; cancelled_line]
       else [unexpected_line (str_exn e)]) /\
    table_rows out = [].
Proof.
  intros Hcat Hsafe Hp.
  assert (Hmain : exists out cs,
             main env "darwin" home w =
               (Raise e, mkWorld (heap w) (stdout w ++ out) (calls w ++ cs)) /\
             table_rows out = []).
  { unfold main, banner, print_colored at 1 2 3, print, write.
    unfold bind at 1 2 3 4. cbn [String.eqb Ascii.eqb Bool.eqb negb heap stdout calls].
    rewrite Hcat.
    match goal with
    | |- context [bind (report env _) _ ?x] =>
        destruct (report_raises env pre post entry e x Hsafe Hp) as (out & Hrun & Hrows)
    end.
    rewrite (bind_Raise _ _ _ _ _ Hrun). cbn [heap stdout calls].
    exists (banner_lines ++ out). eexists. split.
    - unfold banner_lines, colored_line. rewrite <- !app_assoc. reflexivity.
    - rewrite table_rows_app, Hrows. unfold banner_lines, table_rows. cbn [List.filter].
      rewrite !is_row_colored, is_row_newline. reflexivity. }
  destruct Hmain as (out & cs & Hmain & Hrows).
  unfold script. rewrite Hmain.
  destruct e; cbn [fst snd subclass];
    (split; [reflexivity|]); (split; [reflexivity|]); exists out;
    (split; [|exact Hrows]);
    unfold print_colored, print, write, bind, unexpected_line, cancelled_line, colored_line;
    cbn [snd heap stdout calls]; rewrite <- ?app_assoc; reflexivity.
Qed.

End InterruptedRun.

Lemma script_exits_1_when_a_probe_raises_witness :
  probe env_silent_du "/Library/Caches" = Raise IndexError /\
  fst (script env_silent_du "darwin" "/Users/u" (fun _ => "list index out of range")
         empty_world) = 1.
Proof.
  split; [reflexivity|].
  exact (proj1 (script_exits_1_when_a_probe_raises env_silent_du "/Users/u"
                  (fun _ => "list index out of range") []
                  (tl (system_locations "/Users/u"))
                  ("/Library/Caches", "System Caches", true) IndexError empty_world
                  eq_refl eq_refl eq_refl)).
Defined.
